(** * tuckerlsb: LSB steganography over a PIL pixel grid

    A shallow embedding of [src/tuckerlsb.py] (class [TuckerLsb]) and the
    properties of its text codec, its embedding walk ([hide_message]) and its
    extraction walk ([reveal_message]). *)

From Stdlib Require Import ZArith NArith String Ascii.
From stdpp Require Import base numbers list.

Local Open Scope nat_scope.

(** ** Python values *)

(** A Python [str] holding text is the list of its code points; [ord] and
    [chr] are then the identity ([chr] is defined below 0x110000, and this
    program only applies it to the value of at most eight binary digits, see
    [int2_bound]). *)
Abbreviation str := (list N).
Definition ord (c : N) : N := c.
Definition chr (n : N) : N := n.

(** A literal, for readable statements. *)
Definition str_of (s : string) : str := N_of_ascii <$> list_ascii_of_string s.

(** A binary string, that is a Python [str] over the two digits '0' and '1',
    is the list of its digits, [true] for '1'.  The binary strings of this
    program are built from [format(_, '08b')] of a code point, from
    [str(_ & 1)] and from the literal [delimeter], and hold nothing else. *)
Abbreviation binstr := (list bool).

(** [range(n)] and [range(start, stop, step)] for a positive step. *)
Definition range (n : nat) : list nat := seq 0 n.
Definition range3 (start stop step : nat) : list nat :=
  (λ k, start + k * step) <$> seq 0 ((stop - start + (step - 1)) / step).

(** [s[i:j]] for indices within [0 .. ], and [s[:-n]]. *)
Definition slice {A} (s : list A) (i j : nat) : list A := take (j - i) (drop i s).
Definition drop_last {A} (n : nat) (s : list A) : list A := take (length s - n) s.

(** [s.endswith(suffix)]. *)
Definition endswith (s suffix : binstr) : bool :=
  bool_decide (length suffix ≤ length s ∧ drop (length s - length suffix) s = suffix).

(** Binary digits of a natural number, most significant first, as
    [format(n, 'b')] prints them. *)
Fixpoint pos_digits (p : positive) : binstr :=
  match p with
  | xH => [true]
  | xO q => pos_digits q ++ [false]
  | xI q => pos_digits q ++ [true]
  end.

Definition format_b (n : N) : binstr :=
  match n with
  | N0 => [false]
  | Npos p => pos_digits p
  end.

(** [format(n, '08b')]: the digits, filled with '0' on the left up to a width
    of eight; a longer number is not cut. *)
Definition format_08b (n : N) : binstr :=
  replicate (8 - length (format_b n)) false ++ format_b n.

(** [int(s, 2)] on a binary string.  Python raises on the empty string only;
    the one call site passes a slice that starts inside the string. *)
Definition digit_val (b : bool) : N := if b then 1%N else 0%N.
Definition int2 (s : binstr) : N := foldl (λ acc b, (2 * acc + digit_val b)%N) 0%N s.

(** [int(c)] for one digit, and [str(v)] for [v] in {0, 1}. *)
Definition int_digit (b : bool) : Z := if b then 1%Z else 0%Z.
Definition str_digit (v : Z) : bool := negb (v =? 0)%Z.

(** ** The text codec *)

Definition delimeter : binstr :=
  [true; true; true; true; true; true; true; true;
   true; true; true; true; true; true; true; false].

(** [TuckerLsb.text_to_binary] *)
Definition text_to_binary (message : str) : binstr :=
  foldl (λ binary_string char,
           let binary_char := format_08b (ord char) in
           binary_string ++ binary_char)
        [] message.

(** [TuckerLsb.binary_to_text] *)
Definition binary_to_text (binary_message : binstr) : str :=
  foldl (λ text i,
           let byte := slice binary_message i (i + 8) in
           text ++ [chr (int2 byte)])
        [] (range3 0 (length binary_message) 8).

(** ** The image and its pixel access object *)

(** A pixel of a multi-band image is a tuple of channel values. *)
Abbreviation pixel := (list Z).

(** [Image.size] is (width, height); [raster] holds the pixels row by row, the
    pixel at (x, y) at offset [y * width + x]. *)
Record image := Image { size : nat * nat; raster : list pixel }.

Definition inside (im : image) (xy : nat * nat) : bool :=
  (xy.1 <? (size im).1) && (xy.2 <? (size im).2).

Definition offset (im : image) (xy : nat * nat) : nat :=
  xy.2 * (size im).1 + xy.1.

Definition pixel_at (im : image) (xy : nat * nat) : option pixel :=
  if inside im xy then raster im !! offset im xy else None.

Definition put (im : image) (xy : nat * nat) (p : pixel) : image :=
  Image (size im) (<[offset im xy := p]> (raster im)).

(** What [Image.open] followed by [load] hands out: both sides positive, one
    pixel per coordinate, no empty tuple. *)
Definition valid_image (im : image) : Prop :=
  0 < (size im).1 ∧ 0 < (size im).2 ∧
  length (raster im) = (size im).1 * (size im).2 ∧
  Forall (λ p, p ≠ []) (raster im).

Definition square (im : image) : Prop := (size im).1 = (size im).2.

Definition pixel_count (im : image) : nat := (size im).1 * (size im).2.

(** ** Effects: exceptions, the opened image, the saved file, the accesses *)

Inductive exn := IndexError.

Inductive outcome (A : Type) :=
| Val (a : A)
| Exn (e : exn).
Arguments Val {A} a.
Arguments Exn {A} e.

(** Every subscript on the pixel access object is recorded, in order, with the
    coordinate it was given. *)
Inductive event :=
| EvGet (xy : nat * nat)
| EvSet (xy : nat * nat).

Record world := World {
  img : image;            (* the image opened by this call, mutated in place *)
  saved : option image;   (* what [image.save] wrote, if it was reached *)
  log : list event
}.

Definition M (A : Type) : Type := world → outcome A * world.

Definition ret {A} (a : A) : M A := λ w, (Val a, w).
Definition raise {A} (e : exn) : M A := λ w, (Exn e, w).
Definition bind {A B} (m : M A) (k : A → M B) : M B :=
  λ w, match m w with
       | (Val a, w') => k a w'
       | (Exn e, w') => (Exn e, w')
       end.

Notation "x <- m ;; k" := (bind m (λ x, k))
  (at level 100, m at next level, right associativity).
Notation "m ;;; k" := (bind m (λ _, k))
  (at level 100, right associativity).

Definition record (e : event) : M unit :=
  λ w, (Val tt, World (img w) (saved w) (log w ++ [e])).

(** [image.size] *)
Definition image_size : M (nat * nat) := λ w, (Val (size (img w)), w).

(** [pixels[x, y]]: IndexError outside the image. *)
Definition getitem (xy : nat * nat) : M pixel :=
  record (EvGet xy) ;;;
  λ w, match pixel_at (img w) xy with
       | Some p => (Val p, w)
       | None => (Exn IndexError, w)
       end.

(** [pixels[x, y] = p]: IndexError outside the image. *)
Definition setitem (xy : nat * nat) (p : pixel) : M unit :=
  record (EvSet xy) ;;;
  λ w, if inside (img w) xy
       then (Val tt, World (put (img w) xy p) (saved w) (log w))
       else (Exn IndexError, w).

(** [image.save(path)] *)
Definition save : M unit :=
  λ w, (Val tt, World (img w) (Some (img w)) (log w)).

(** [s[i]] on a list, tuple or string, for an index from 0. *)
Definition index {A} (s : list A) (i : nat) : M A :=
  match s !! i with
  | Some x => ret x
  | None => raise IndexError
  end.

(** ** Loops *)

(** How the body of a [for] loop ends: it falls through to the next item
    carrying the loop's variables, it breaks, or it returns from the
    function. *)
Inductive ctl (A R : Type) :=
| Continue (a : A)
| Break (a : A)
| Return (r : R).
Arguments Continue {A R} a.
Arguments Break {A R} a.
Arguments Return {A R} r.

(** [for i in items: body]; the result is [Continue] when the items ran out,
    which is when Python runs the loop's [else] branch. *)
Fixpoint for_loop {I A R} (items : list I) (body : I → A → M (ctl A R)) (a : A)
  : M (ctl A R) :=
  match items with
  | [] => ret (Continue a)
  | i :: rest =>
      r <- body i a ;;
      match r with
      | Continue a' => for_loop rest body a'
      | _ => ret r
      end
  end.

(** What a loop does after one of its parts has run. *)
Definition resume {A R} (rest : A → M (ctl A R)) (r : ctl A R) : M (ctl A R) :=
  match r with
  | Continue a => rest a
  | _ => ret r
  end.

(** ** The embedding walk *)

(** The body of the inner loop of [hide_message], lines 68 to 77. *)
Definition hide_body (binary_message : binstr) (row column : nat) (message_index : nat)
  : M (ctl nat unit) :=
  if message_index <? length binary_message then
    pixel <- getitem (row, column) ;;
    digit <- index binary_message message_index ;;
    let bit_to_write := int_digit digit in
    channel <- index pixel 0 ;;
    let pixel := <[0 := Z.lor (Z.land channel (Z.lnot 1)) bit_to_write]> pixel in
    setitem (column, row) pixel ;;;
    ret (Continue (message_index + 1))
  else
    ret (Break message_index).

(** [TuckerLsb.hide_message]; the line printed before saving is left out. *)
Definition hide_message (message : str) : M unit :=
  let binary_message := text_to_binary message ++ delimeter in
  sz <- image_size ;;
  let message_index := 0 in
  _ <- for_loop (range sz.1) (λ row message_index,
         r <- for_loop (range sz.2) (hide_body binary_message row) message_index ;;
         match r with
         | Continue message_index => ret (Continue message_index)  (* else: continue *)
         | _ => ret r                                              (* break *)
         end) message_index ;;
  save.

(** ** The extraction walk *)

(** The body of the inner loop of [reveal_message], lines 123 to 129. *)
Definition reveal_body (row column : nat) (binary_message : binstr)
  : M (ctl binstr str) :=
  pixel <- getitem (column, row) ;;
  channel <- index pixel 0 ;;
  let least_significant_bit := Z.land channel 1 in
  let binary_message := binary_message ++ [str_digit least_significant_bit] in
  if endswith binary_message delimeter then
    let binary_message := drop_last 16 binary_message in
    ret (Return (binary_to_text binary_message))
  else
    ret (Continue binary_message).

(** [TuckerLsb.reveal_message] *)
Definition reveal_message : M str :=
  sz <- image_size ;;
  r <- for_loop (range sz.1) (λ row binary_message,
         for_loop (range sz.2) (reveal_body row) binary_message) [] ;;
  match r with
  | Return text => ret text
  | _ => ret (str_of "ERROR")
  end.

(** ** One call on one file *)

Definition opened (im : image) : world := World im None [].

Definition hide (im : image) (message : str) : outcome unit * world :=
  hide_message message (opened im).

Definition reveal (im : image) : outcome str * world :=
  reveal_message (opened im).

(** The file written by [hide], when it got as far as saving. *)
Definition hidden (im : image) (message : str) : option image :=
  saved (hide im message).2.

(** Images for examples: one colour; the square image whose pixel at (x, y)
    is (0, x, y); what is saved when the code units 0xFF 0xFE are hidden in a
    black image of 6 by 6. *)
Definition plain (w h : nat) (p : pixel) : image := Image (w, h) (replicate (w * h) p).
Definition black : pixel := [0; 0; 0]%Z.
Definition coordinates (n : nat) : image :=
  Image (n, n) ((λ k, [0; Z.of_nat (k mod n); Z.of_nat (k / n)]%Z) <$> seq 0 (n * n)).
Definition sentinel_inside : image :=
  default (plain 6 6 black) (hidden (plain 6 6 black) [255; 254]%N).

(** ** Notions used by the statements *)

(** The pairs (row, column) in the order in which the two nested loops of
    either walk produce them. *)
Definition scan (sz : nat * nat) : list (nat * nat) :=
  row ← range sz.1; pair row <$> range sz.2.

Definition transpose (rc : nat * nat) : nat * nat := (rc.2, rc.1).

(** The inner loop bodies on a pair of loop variables. *)
Definition hide_step (binary_message : binstr) (rc : nat * nat) : nat → M (ctl nat unit) :=
  hide_body binary_message rc.1 rc.2.
Definition reveal_step (rc : nat * nat) : binstr → M (ctl binstr str) :=
  reveal_body rc.1 rc.2.

(** The digit that [reveal_message] appends for the pixel at [xy]; nothing
    when the subscript raises. *)
Definition lsb_at (im : image) (xy : nat * nat) : option bool :=
  p ← pixel_at im xy; channel ← p !! 0; Some (str_digit (Z.land channel 1)).

(** The digits that the first [k] steps of the extraction walk read. *)
Definition reads (im : image) (k : nat) : option binstr :=
  mapM (λ rc, lsb_at im (transpose rc)) (take k (scan (size im))).

(** The first step, counted from 0, after which the buffer ends with the
    delimeter, when [s] is appended to [buf] digit by digit. *)
Fixpoint first_match (buf s : binstr) : option nat :=
  match s with
  | [] => None
  | b :: s' =>
      if endswith (buf ++ [b]) delimeter then Some 0
      else S <$> first_match (buf ++ [b]) s'
  end.

(** No proper prefix of [bits] ends with the delimeter. *)
Definition sentinel_only_at_end (bits : binstr) : Prop :=
  ∀ j, S j < length bits → endswith (take (S j) bits) delimeter = false.

(** The coordinates of the subscript reads and writes of a log. *)
Definition gets (l : list event) : list (nat * nat) :=
  omap (λ e, match e with EvGet xy => Some xy | EvSet _ => None end) l.
Definition sets (l : list event) : list (nat * nat) :=
  omap (λ e, match e with EvSet xy => Some xy | EvGet _ => None end) l.

(** What a completed step of the embedding walk leaves in the log. *)
Definition hide_events (rc : nat * nat) : list event :=
  [EvGet rc; EvSet (transpose rc)].

(** Channel 0 with its lowest bit replaced. *)
Definition with_lsb (channel : Z) (d : bool) : Z :=
  Z.lor (Z.land channel (Z.lnot 1)) (int_digit d).

(** The eight binary digits of a code unit, most significant first. *)
Definition byte_bits (c : N) : binstr :=
  (λ i, N.testbit c (N.of_nat i)) <$> [7; 6; 5; 4; 3; 2; 1; 0].

(** The [k]-th run of eight digits of a binary string (shorter at the end). *)
Definition group8 (bits : binstr) (k : nat) : binstr := take 8 (drop (8 * k) bits).

(** A tuple with the lowest bit of its channel 0 replaced, as line 72 leaves
    the list copy of a pixel. *)
Definition set_lsb (p : pixel) (d : bool) : pixel :=
  match p with
  | channel :: rest => with_lsb channel d :: rest
  | [] => []
  end.

(** The number of steps of the scan before the first one whose transposed
    coordinate is outside the image: the width when the image is higher than
    wide, the square of the height otherwise (all steps on a square image). *)
Definition reach (im : image) : nat :=
  if (size im).1 <? (size im).2 then (size im).1 else (size im).2 * (size im).2.

(** Where the tuple written at step (row, column) of the embedding walk on a
    square image comes from: the pixel itself below the diagonal of the loop
    variables, the pixel at (row, column) otherwise. *)
Definition source (rc : nat * nat) : nat * nat :=
  if rc.2 <? rc.1 then transpose rc else rc.

(** * Properties *)

(** ** The text codec *)

Section Codec.

Lemma foldl_app_bind {A B} (f : A → list B) (l : list A) (init : list B) :
  foldl (λ acc x, acc ++ f x) init l = init ++ (l ≫= f).
Proof.
  revert init. induction l as [|x l IH]; intros init; simpl.
  - by rewrite app_nil_r.
  - rewrite IH. by rewrite app_assoc.
Qed.

Lemma text_to_binary_bind (message : str) :
  text_to_binary message = message ≫= format_08b.
Proof. unfold text_to_binary, ord. etrans; [apply (foldl_app_bind format_08b)|done]. Qed.

Lemma text_to_binary_cons (c : N) (message : str) :
  text_to_binary (c :: message) = format_08b c ++ text_to_binary message.
Proof. by rewrite !text_to_binary_bind. Qed.

Lemma binary_to_text_fmap (bits : binstr) :
  binary_to_text bits =
  (λ i, chr (int2 (slice bits i (i + 8)))) <$> range3 0 (length bits) 8.
Proof.
  unfold binary_to_text.
  etrans; [apply (foldl_app_bind (λ i, [chr (int2 (slice bits i (i + 8)))]))|]. simpl.
  induction (range3 0 (length bits) 8) as [|i l IH]; [done|].
  by rewrite bind_cons, fmap_cons, IH.
Qed.

Lemma slice_group8 (bits : binstr) (k : nat) :
  slice bits (k * 8) (k * 8 + 8) = group8 bits k.
Proof. unfold slice, group8. f_equal; [lia|f_equal; lia]. Qed.

Lemma binary_to_text_groups (bits : binstr) :
  binary_to_text bits =
  (λ k, chr (int2 (group8 bits k))) <$> seq 0 ((length bits + 7) / 8).
Proof.
  rewrite binary_to_text_fmap. unfold range3.
  rewrite <- list_fmap_compose.
  replace (length bits - 0 + (8 - 1)) with (length bits + 7) by lia.
  apply list_fmap_ext. intros _ k _. simpl. by rewrite slice_group8.
Qed.

(** Every slice that [binary_to_text] converts starts inside the string, so
    [int] never sees an empty string. *)
Lemma binary_to_text_slices_nonempty (bits : binstr) (i : nat) :
  i ∈ range3 0 (length bits) 8 → slice bits i (i + 8) ≠ [].
Proof.
  unfold range3. intros [k [-> Hk]]%list_elem_of_fmap.
  apply elem_of_seq in Hk.
  assert (k * 8 < length bits).
  { pose proof (Nat.div_mod_eq (length bits - 0 + (8 - 1)) 8).
    pose proof (Nat.mod_upper_bound (length bits - 0 + (8 - 1)) 8). lia. }
  intros Hnil. apply (f_equal length) in Hnil.
  unfold slice in Hnil. rewrite length_take, length_drop in Hnil. simpl in Hnil. lia.
Qed.

Lemma int2_app (s t : binstr) :
  int2 (s ++ t) = foldl (λ acc b, (2 * acc + digit_val b)%N) (int2 s) t.
Proof. unfold int2. by rewrite foldl_app. Qed.

Lemma int2_snoc (s : binstr) (b : bool) :
  int2 (s ++ [b]) = (2 * int2 s + digit_val b)%N.
Proof. by rewrite int2_app. Qed.

Lemma int2_replicate_false (n : nat) : int2 (replicate n false) = 0%N.
Proof.
  induction n as [|n IH]; [done|].
  replace (S n) with (n + 1) by lia.
  rewrite replicate_add. simpl. rewrite int2_snoc, IH. done.
Qed.

Lemma int2_zeros (n : nat) (s : binstr) :
  int2 (replicate n false ++ s) = int2 s.
Proof. by rewrite int2_app, int2_replicate_false. Qed.

Lemma int2_pos_digits (p : positive) : int2 (pos_digits p) = Npos p.
Proof.
  induction p as [p IH|p IH|]; simpl; [| |done].
  - rewrite int2_snoc, IH. simpl. lia.
  - rewrite int2_snoc, IH. simpl. lia.
Qed.

(** [format] and [int] are inverse on every number, whatever its width. *)
Lemma int2_format_08b (n : N) : int2 (format_08b n) = n.
Proof.
  unfold format_08b. rewrite int2_zeros.
  destruct n as [|p]; [done|apply int2_pos_digits].
Qed.

(** The value of at most eight digits is a code unit, well inside the domain
    of [chr]. *)
Lemma int2_bound (s : binstr) : (int2 s < 2 ^ N.of_nat (length s))%N.
Proof.
  induction s as [|b s IH] using rev_ind; [done|].
  rewrite int2_snoc, length_app. simpl.
  replace (N.of_nat (length s + 1)) with (N.succ (N.of_nat (length s))) by lia.
  rewrite N.pow_succ_r'. destruct b; simpl; lia.
Qed.

Lemma group8_code_unit (bits : binstr) (k : nat) : (int2 (group8 bits k) < 256)%N.
Proof.
  pose proof (int2_bound (group8 bits k)) as Hb.
  assert (length (group8 bits k) ≤ 8) as Hlen
    by (unfold group8; rewrite length_take; lia).
  eapply N.lt_le_trans; [exact Hb|].
  change 256%N with (2 ^ 8)%N. apply N.pow_le_mono_r; lia.
Qed.

Lemma code_units_enum (c : N) :
  (c < 256)%N → c ∈ (N.of_nat <$> seq 0 256).
Proof.
  intros Hc. apply list_elem_of_fmap. exists (N.to_nat c).
  split; [lia|]. apply elem_of_seq. lia.
Qed.

Lemma format_08b_byte_bits (c : N) : (c < 256)%N → format_08b c = byte_bits c.
Proof.
  intros Hc%code_units_enum.
  assert (Forall (λ c, format_08b c = byte_bits c) (N.of_nat <$> seq 0 256)) as Hall
    by (apply (bool_decide_unpack _); vm_compute; exact I).
  rewrite list.Forall_forall in Hall. by apply Hall.
Qed.

Lemma format_08b_length (c : N) : (c < 256)%N → length (format_08b c) = 8.
Proof. intros Hc. by rewrite format_08b_byte_bits. Qed.

Lemma range3_8_shift (n : nat) :
  range3 0 (8 + n) 8 = 0 :: ((λ i, 8 + i) <$> range3 0 n 8).
Proof.
  unfold range3.
  replace (8 + n - 0 + (8 - 1)) with ((n - 0 + (8 - 1)) + 1 * 8) by lia.
  rewrite Nat.div_add by lia.
  rewrite Nat.add_comm. simpl seq. rewrite fmap_cons. f_equal.
  rewrite <- list_fmap_compose, <- fmap_S_seq, <- list_fmap_compose.
  apply list_fmap_ext. intros _ k _. simpl. lia.
Qed.

Lemma slice_app_l {A} (s t : list A) : slice (s ++ t) 0 (length s) = s.
Proof. unfold slice. rewrite Nat.sub_0_r, drop_0. apply take_app_length. Qed.

Lemma slice_app_r {A} (s t : list A) (i j : nat) :
  slice (s ++ t) (length s + i) (length s + j) = slice t i j.
Proof. unfold slice. rewrite drop_app_add. f_equal. lia. Qed.

Lemma binary_to_text_app8 (byte rest : binstr) :
  length byte = 8 →
  binary_to_text (byte ++ rest) = chr (int2 byte) :: binary_to_text rest.
Proof.
  intros Hlen. rewrite !binary_to_text_fmap.
  rewrite length_app, Hlen, range3_8_shift, fmap_cons. f_equal.
  - change (0 + 8) with 8. rewrite <- Hlen. by rewrite slice_app_l.
  - rewrite <- list_fmap_compose. apply list_fmap_ext. intros _ i _.
    unfold compose. replace (8 + i + 8) with (8 + (i + 8)) by lia.
    rewrite <- Hlen. by rewrite slice_app_r.
Qed.

(** Decoding undoes encoding on 8-bit text. *)
Lemma binary_to_text_text_to_binary (message : str) :
  Forall (λ c, (c < 256)%N) message →
  binary_to_text (text_to_binary message) = message.
Proof.
  induction 1 as [|c message Hc _ IH]; [done|].
  rewrite text_to_binary_cons, binary_to_text_app8 by by apply format_08b_length.
  by rewrite int2_format_08b, IH.
Qed.

Lemma text_to_binary_length (message : str) :
  Forall (λ c, (c < 256)%N) message →
  length (text_to_binary message) = 8 * length message.
Proof.
  induction 1 as [|c message Hc _ IH]; [done|].
  rewrite text_to_binary_cons, length_app, format_08b_length by done. simpl. lia.
Qed.

End Codec.

(** ** Loops *)

Section Loops.
Context {I A R : Type}.
Implicit Types (body : I → A → M (ctl A R)) (w : world).

Lemma for_loop_cons i items body a w :
  for_loop (i :: items) body a w = bind (body i a) (resume (for_loop items body)) w.
Proof. reflexivity. Qed.

Lemma for_loop_app items1 items2 body a w :
  for_loop (items1 ++ items2) body a w =
  bind (for_loop items1 body a) (resume (for_loop items2 body)) w.
Proof.
  revert a w. induction items1 as [|i items1 IH]; intros a w; [done|].
  simpl. unfold bind in *.
  destruct (body i a w) as [[[a'| |]|e] w1]; simpl; first [done | apply IH].
Qed.

Lemma for_loop_fmap {J} (f : J → I) (items : list J) body a w :
  for_loop (f <$> items) body a w = for_loop items (λ j, body (f j)) a w.
Proof.
  revert a w. induction items as [|j items IH]; intros a w; [done|].
  simpl. unfold bind.
  destruct (body (f j) a w) as [[[a'| |]|e] w1]; simpl; first [done | apply IH].
Qed.

End Loops.

(** The two nested loops of either walk are one loop over [scan]: a [break]
    of the inner loop is followed by the [break] of the outer one, and the
    [else: continue] passes the variables on. *)
Lemma for_loop_rows {A R} (sz : nat * nat) (body : nat → nat → A → M (ctl A R))
    (pass : ctl A R → M (ctl A R)) (a : A) (w : world) :
  (∀ r w, pass r w = (Val r, w)) →
  for_loop (range sz.1) (λ row a, r <- for_loop (range sz.2) (body row) a ;; pass r) a w =
  for_loop (scan sz) (λ rc, body rc.1 rc.2) a w.
Proof.
  intros Hpass. unfold scan. generalize (range sz.1) as rows.
  intros rows. revert a w. induction rows as [|row rows IH]; intros a w; [done|].
  rewrite bind_cons, for_loop_app. simpl. unfold bind.
  rewrite for_loop_fmap. simpl.
  destruct (for_loop (range sz.2) (body row) a w) as [[r|e] w1]; [|done].
  rewrite Hpass. destruct r; simpl; first [done | apply IH].
Qed.

Lemma for_loop_rows_plain {A R} (sz : nat * nat) (body : nat → nat → A → M (ctl A R))
    (a : A) (w : world) :
  for_loop (range sz.1) (λ row a, for_loop (range sz.2) (body row) a) a w =
  for_loop (scan sz) (λ rc, body rc.1 rc.2) a w.
Proof.
  unfold scan. generalize (range sz.1) as rows.
  intros rows. revert a w. induction rows as [|row rows IH]; intros a w; [done|].
  rewrite bind_cons, for_loop_app. simpl. unfold bind.
  rewrite for_loop_fmap. simpl.
  destruct (for_loop (range sz.2) (body row) a w) as [[r|e] w1]; [|done].
  destruct r; simpl; first [done | apply IH].
Qed.

(** ** The pixel grid *)

Section Grid.
Implicit Types (im : image) (xy rc : nat * nat) (p : pixel).

Lemma inside_spec im xy :
  inside im xy = true ↔ xy.1 < (size im).1 ∧ xy.2 < (size im).2.
Proof. unfold inside. rewrite andb_true_iff, !Nat.ltb_lt. done. Qed.

Lemma offset_inj im xy xy' :
  inside im xy = true → inside im xy' = true →
  offset im xy = offset im xy' → xy = xy'.
Proof.
  rewrite !inside_spec. unfold offset.
  destruct xy as [x y], xy' as [x' y']; simpl. intros [Hx _] [Hx' _] Heq.
  assert (y = y') by nia. subst y'. f_equal. lia.
Qed.

Lemma offset_lt im xy :
  inside im xy = true → offset im xy < (size im).1 * (size im).2.
Proof. rewrite inside_spec. unfold offset. intros [? ?]. nia. Qed.

Lemma transpose_involutive rc : transpose (transpose rc) = rc.
Proof. by destruct rc. Qed.

Lemma transpose_inj rc rc' : transpose rc = transpose rc' → rc = rc'.
Proof. destruct rc, rc'. unfold transpose. simpl. congruence. Qed.

Lemma valid_pixel_at im xy :
  valid_image im → inside im xy = true →
  ∃ channel rest, pixel_at im xy = Some (channel :: rest).
Proof.
  intros (_ & _ & Hlen & Hne) Hin. unfold pixel_at. rewrite Hin.
  destruct (lookup_lt_is_Some_2 (raster im) (offset im xy)) as [p Hp].
  { rewrite Hlen. by apply offset_lt. }
  rewrite Forall_lookup in Hne. specialize (Hne _ _ Hp).
  destruct p as [|channel rest]; [done|]. eauto.
Qed.

Lemma valid_lsb_at im xy :
  valid_image im → inside im xy = true → is_Some (lsb_at im xy).
Proof.
  intros Hv Hin. destruct (valid_pixel_at im xy Hv Hin) as (c & rest & Hp).
  unfold lsb_at. rewrite Hp. simpl. eauto.
Qed.

Lemma lsb_at_outside im xy : inside im xy = false → lsb_at im xy = None.
Proof. intros Hin. unfold lsb_at, pixel_at. by rewrite Hin. Qed.

Lemma put_size im xy p : size (put im xy p) = size im.
Proof. done. Qed.

Lemma put_inside im xy p xy' : inside (put im xy p) xy' = inside im xy'.
Proof. done. Qed.

Lemma put_valid im xy p : valid_image im → p ≠ [] → valid_image (put im xy p).
Proof.
  intros (HW & HH & Hlen & Hne) Hp. unfold valid_image, put. simpl.
  rewrite length_insert. repeat split; try done.
  by apply Forall_insert.
Qed.

Lemma pixel_at_put_eq im xy p :
  valid_image im → inside im xy = true → pixel_at (put im xy p) xy = Some p.
Proof.
  intros (_ & _ & Hlen & _) Hin. unfold pixel_at. rewrite put_inside, Hin.
  unfold put, offset. simpl. apply list_lookup_insert_eq.
  rewrite Hlen. by apply offset_lt.
Qed.

Lemma pixel_at_put_ne im xy p xy' :
  inside im xy = true → xy ≠ xy' → pixel_at (put im xy p) xy' = pixel_at im xy'.
Proof.
  intros Hin Hne. unfold pixel_at. rewrite put_inside.
  destruct (inside im xy') eqn:Hin'; [|done].
  unfold put, offset. simpl. apply list_lookup_insert_ne.
  intros Heq. apply Hne. by apply (offset_inj im).
Qed.

Lemma lsb_with_lsb (channel : Z) (d : bool) :
  str_digit (Z.land (with_lsb channel d) 1) = d.
Proof.
  unfold with_lsb, str_digit.
  assert (Z.land (Z.lor (Z.land channel (Z.lnot 1)) (int_digit d)) 1 = int_digit d) as ->.
  { apply Z.bits_inj'. intros n Hn.
    rewrite Z.land_spec, Z.lor_spec, Z.land_spec, Z.lnot_spec by done.
    destruct (decide (n = 0%Z)) as [->|Hn0].
    - destruct d; simpl; by rewrite ?andb_false_r.
    - assert (Z.testbit 1 n = false) as ->.
      { change 1%Z with (2 ^ 0)%Z. apply Z.pow2_bits_false. lia. }
      rewrite andb_false_r. destruct d; simpl; [|by rewrite Z.testbit_0_l].
      symmetry. change 1%Z with (2 ^ 0)%Z. apply Z.pow2_bits_false. lia. }
  by destruct d.
Qed.

Lemma lsb_at_put_eq im xy channel rest d :
  valid_image im → inside im xy = true →
  lsb_at (put im xy (<[0 := with_lsb channel d]> (channel :: rest))) xy = Some d.
Proof.
  intros Hv Hin. unfold lsb_at. rewrite pixel_at_put_eq by done. simpl.
  by rewrite lsb_with_lsb.
Qed.

(** *** The scan *)

Lemma rows_length (a n m : nat) :
  length (seq a n ≫= λ row, pair row <$> seq 0 m) = n * m.
Proof.
  revert a. induction n as [|n IH]; intros a; [done|].
  simpl seq. rewrite bind_cons, length_app, length_fmap, length_seq, IH. lia.
Qed.

Lemma scan_length sz : length (scan sz) = sz.1 * sz.2.
Proof. apply rows_length. Qed.

Lemma scan_elem sz rc : rc ∈ scan sz ↔ rc.1 < sz.1 ∧ rc.2 < sz.2.
Proof.
  unfold scan, range. rewrite list_elem_of_bind. split.
  - intros (row & [col [-> Hcol]]%list_elem_of_fmap & Hrow).
    apply elem_of_seq in Hcol, Hrow. simpl. lia.
  - intros [H1 H2]. exists rc.1. split.
    + apply list_elem_of_fmap. exists rc.2. split; [by destruct rc|].
      apply elem_of_seq. lia.
    + apply elem_of_seq. lia.
Qed.

Lemma scan_NoDup sz : NoDup (scan sz).
Proof.
  unfold scan, range. apply NoDup_bind.
  - intros row row' rc _ _ [c [-> _]]%list_elem_of_fmap [c' [Heq _]]%list_elem_of_fmap.
    congruence.
  - intros row _. apply NoDup_fmap_2; [|apply NoDup_seq]. intros c c'. congruence.
  - apply NoDup_seq.
Qed.

Lemma rows_lookup (a n m k : nat) :
  k < n * m →
  (seq a n ≫= λ row, pair row <$> seq 0 m) !! k = Some (a + k / m, k mod m).
Proof.
  revert a k. induction n as [|n IH]; intros a k Hk; [lia|].
  assert (0 < m) by nia.
  simpl seq. rewrite bind_cons.
  destruct (decide (k < m)) as [Hlt|Hge].
  - rewrite lookup_app_l by (by rewrite length_fmap, length_seq).
    rewrite list_lookup_fmap, lookup_seq_lt by done. simpl.
    rewrite Nat.div_small, Nat.mod_small by done. do 2 f_equal; lia.
  - rewrite lookup_app_r by (rewrite length_fmap, length_seq; lia).
    rewrite length_fmap, length_seq, IH by nia.
    assert (k / m = S ((k - m) / m)) as ->.
    { replace k with ((k - m) + 1 * m) at 1 by lia. rewrite Nat.div_add by lia. lia. }
    assert (k mod m = (k - m) mod m) as ->.
    { replace k with ((k - m) + 1 * m) at 1 by lia. by rewrite Nat.Div0.mod_add. }
    do 2 f_equal; lia.
Qed.

(** The walk goes through the first axis in the outer loop and through the
    second in the inner one. *)
Lemma scan_lookup sz k :
  k < sz.1 * sz.2 → scan sz !! k = Some (k / sz.2, k mod sz.2).
Proof. intros Hk. unfold scan, range. by rewrite rows_lookup. Qed.

Lemma scan_lookup_Some sz k rc :
  scan sz !! k = Some rc → k < sz.1 * sz.2 ∧ rc = (k / sz.2, k mod sz.2).
Proof.
  intros Hk. assert (k < sz.1 * sz.2) as Hlt.
  { rewrite <- scan_length. by eapply lookup_lt_Some. }
  rewrite scan_lookup in Hk by done. split; congruence.
Qed.

Lemma scan_inside im rc : rc ∈ scan (size im) → inside im rc = true.
Proof. rewrite scan_elem, inside_spec. done. Qed.

Lemma scan_inside_square im rc :
  square im → rc ∈ scan (size im) → inside im (transpose rc) = true.
Proof.
  unfold square. rewrite scan_elem, inside_spec. destruct rc; simpl. lia.
Qed.

Lemma square_steps_inside im k :
  square im → Forall (λ rc, inside im (transpose rc) = true) (take k (scan (size im))).
Proof.
  intros Hsq. apply list.Forall_forall. intros rc Hrc.
  apply scan_inside_square; [done|]. by apply (subseteq_take k).
Qed.

End Grid.

(** ** The primitives, run on a world *)

Lemma getitem_run (xy : nat * nat) (w : world) :
  getitem xy w =
  (match pixel_at (img w) xy with Some p => Val p | None => Exn IndexError end,
   World (img w) (saved w) (log w ++ [EvGet xy])).
Proof. unfold getitem, bind, record. simpl. by destruct (pixel_at (img w) xy). Qed.

Lemma setitem_run (xy : nat * nat) (p : pixel) (w : world) :
  setitem xy p w =
  if inside (img w) xy
  then (Val tt, World (put (img w) xy p) (saved w) (log w ++ [EvSet xy]))
  else (Exn IndexError, World (img w) (saved w) (log w ++ [EvSet xy])).
Proof. unfold setitem, bind, record. simpl. by destruct (inside (img w) xy). Qed.

Lemma index_run {A} (s : list A) (i : nat) (w : world) :
  index s i w = (match s !! i with Some x => Val x | None => Exn IndexError end, w).
Proof. unfold index. by destruct (s !! i). Qed.

(** ** The embedding walk *)

Section Embedding.
Variable bits : binstr.
Implicit Types (im : image) (rc xy : nat * nat) (w : world) (i : nat).

Lemma hide_step_break rc i w :
  length bits ≤ i → hide_step bits rc i w = (Val (Break i), w).
Proof.
  intros Hi. unfold hide_step, hide_body.
  by rewrite (proj2 (Nat.ltb_ge _ _) Hi).
Qed.

Lemma hide_step_ok rc i w d channel rest :
  bits !! i = Some d →
  pixel_at (img w) rc = Some (channel :: rest) →
  inside (img w) (transpose rc) = true →
  hide_step bits rc i w =
  (Val (Continue (i + 1)),
   World (put (img w) (transpose rc) (<[0 := with_lsb channel d]> (channel :: rest)))
         (saved w) (log w ++ hide_events rc)).
Proof.
  intros Hd Hp Hin. unfold hide_step, hide_body.
  rewrite (proj2 (Nat.ltb_lt _ _) (lookup_lt_Some _ _ _ Hd)).
  destruct rc as [row column]. unfold transpose in *. cbn [fst snd] in *.
  unfold bind. rewrite getitem_run, Hp. cbv beta iota.
  rewrite index_run, Hd. cbv beta iota. rewrite index_run.
  change ((channel :: rest) !! 0) with (Some channel). cbv beta iota.
  rewrite setitem_run. cbn [img saved log]. rewrite Hin.
  unfold ret, hide_events, transpose. cbn [fst snd]. by rewrite <- app_assoc.
Qed.

Lemma hide_step_outside rc i w d channel rest :
  bits !! i = Some d →
  pixel_at (img w) rc = Some (channel :: rest) →
  inside (img w) (transpose rc) = false →
  hide_step bits rc i w =
  (Exn IndexError, World (img w) (saved w) (log w ++ hide_events rc)).
Proof.
  intros Hd Hp Hin. unfold hide_step, hide_body.
  rewrite (proj2 (Nat.ltb_lt _ _) (lookup_lt_Some _ _ _ Hd)).
  destruct rc as [row column]. unfold transpose in *. cbn [fst snd] in *.
  unfold bind. rewrite getitem_run, Hp. cbv beta iota.
  rewrite index_run, Hd. cbv beta iota. rewrite index_run.
  change ((channel :: rest) !! 0) with (Some channel). cbv beta iota.
  rewrite setitem_run. cbn [img saved log]. rewrite Hin.
  unfold hide_events, transpose. cbn [fst snd]. by rewrite <- app_assoc.
Qed.

(** Once the cursor is at the end, the walk stops without touching anything. *)
Lemma hide_walk_break (l : list (nat * nat)) i w :
  length bits ≤ i →
  for_loop l (hide_step bits) i w =
  (Val (match l with [] => Continue i | _ => Break i end), w).
Proof.
  intros Hi. destruct l as [|rc l]; [done|].
  rewrite for_loop_cons. unfold bind. by rewrite hide_step_break.
Qed.

(** A stretch of the walk that stays inside the image and inside the
    bitstream: every step writes its digit at the transposed coordinate. *)
Lemma hide_walk (l : list (nat * nat)) : ∀ i w,
  valid_image (img w) →
  Forall (λ rc, inside (img w) rc = true ∧ inside (img w) (transpose rc) = true) l →
  i + length l ≤ length bits →
  ∃ im',
    for_loop l (hide_step bits) i w =
      (Val (Continue (i + length l)),
       World im' (saved w) (log w ++ (l ≫= hide_events))) ∧
    size im' = size (img w) ∧
    valid_image im' ∧
    (∀ xy, xy ∉ transpose <$> l → pixel_at im' xy = pixel_at (img w) xy) ∧
    (NoDup l → ∀ j rc, l !! j = Some rc → lsb_at im' (transpose rc) = bits !! (i + j)).
Proof.
  induction l as [|rc l IH]; intros i w Hv Hin Hlen.
  - exists (img w). simpl. rewrite Nat.add_0_r, app_nil_r.
    destruct w. split; [|split; [|split; [|split]]]; try done.
  - apply list.Forall_cons in Hin as [[Hrc Htr] Hin]. simpl in Hlen.
    destruct (valid_pixel_at _ _ Hv Hrc) as (channel & rest & Hp).
    destruct (lookup_lt_is_Some_2 bits i) as [d Hd]; [lia|].
    set (im1 := put (img w) (transpose rc) (<[0 := with_lsb channel d]> (channel :: rest))).
    set (w1 := World im1 (saved w) (log w ++ hide_events rc)).
    assert (valid_image im1) as Hv1 by by apply put_valid.
    destruct (IH (i + 1) w1) as (im' & Hrun & Hsize & Hv' & Hframe & Hlsb);
      [done|done|lia|].
    exists im'. split; [|split; [|split; [|split]]]; try done.
    + rewrite for_loop_cons. unfold bind.
      rewrite (hide_step_ok rc i w d channel rest) by done.
      cbv beta iota. unfold resume. fold im1. fold w1. rewrite Hrun.
      unfold w1. cbn [saved log]. rewrite bind_cons, <- app_assoc.
      do 3 f_equal. simpl. lia.
    + intros xy Hxy. rewrite fmap_cons, not_elem_of_cons in Hxy.
      destruct Hxy as [Hne Hxy]. rewrite Hframe by done.
      apply pixel_at_put_ne; done.
    + intros Hnd j rc' Hj. apply list.NoDup_cons in Hnd as [Hnotin Hnd].
      destruct j as [|j]; simpl in Hj.
      * injection Hj as <-. rewrite Nat.add_0_r, Hd.
        unfold lsb_at. rewrite Hframe.
        -- simpl. fold (lsb_at im1 (transpose rc)). by apply lsb_at_put_eq.
        -- intros [rc' [Heq Hrc']]%list_elem_of_fmap.
           apply transpose_inj in Heq. by subst rc'.
      * rewrite (Hlsb Hnd j rc' Hj). f_equal. lia.
Qed.

End Embedding.

Lemma elem_of_take_elem {A} (x : A) (n : nat) (l : list A) : x ∈ take n l → x ∈ l.
Proof. apply subseteq_take. Qed.

Lemma NoDup_take_prefix {A} (n : nat) (l : list A) : NoDup l → NoDup (take n l).
Proof.
  intros Hnd. rewrite <- (take_drop n l) in Hnd.
  by apply NoDup_app in Hnd as [? _].
Qed.

(** ** [hide_message] as a whole *)

Section Hide.
Variables (im : image) (message : str).
Local Abbreviation bits := (text_to_binary message ++ delimeter).
Local Abbreviation cells := (scan (size im)).

Lemma hide_unfold :
  hide im message = bind (for_loop cells (hide_step bits) 0) (λ _, save) (opened im).
Proof.
  unfold hide, hide_message.
  unfold bind at 1. unfold image_size. cbv beta iota. unfold bind at 1.
  rewrite (for_loop_rows (size (img (opened im))) (hide_body bits)
             (λ r, match r with Continue mi => ret (Continue mi) | _ => ret r end));
    [done|].
  by intros [].
Qed.

(** The walk of [n] steps, [n] the smaller of the number of digits and the
    number of pixels, when all those steps write inside the image: it ends
    normally and the image is saved with one digit per step. *)
Lemma hide_completes (n : nat) :
  valid_image im →
  n = length bits `min` pixel_count im →
  Forall (λ rc, inside im (transpose rc) = true) (take n cells) →
  ∃ im',
    hide im message = (Val tt, World im' (Some im') (take n cells ≫= hide_events)) ∧
    size im' = size im ∧
    valid_image im' ∧
    (∀ xy, xy ∉ transpose <$> take n cells → pixel_at im' xy = pixel_at im xy) ∧
    (∀ j rc, j < n → cells !! j = Some rc → lsb_at im' (transpose rc) = bits !! j).
Proof.
  intros Hv Hn Hin.
  assert (length cells = pixel_count im) as Hcells by apply scan_length.
  assert (length (take n cells) = n) as Htake by (rewrite length_take; lia).
  destruct (hide_walk bits (take n cells) 0 (opened im)) as (im' & Hrun & Hsize & Hv' & Hframe & Hlsb).
  - done.
  - apply list.Forall_forall. intros rc Hrc. split.
    + apply scan_inside. by eapply elem_of_take_elem.
    + rewrite list.Forall_forall in Hin. by apply Hin.
  - rewrite Htake. lia.
  - exists im'. split; [|split; [|split; [|split]]]; try done.
    + rewrite hide_unfold. rewrite <- (take_drop n cells) at 1.
      unfold bind at 1. rewrite for_loop_app. unfold bind at 1.
      rewrite Hrun, Htake. cbv beta iota. unfold resume, opened. cbn [saved log].
      destruct (decide (length bits ≤ n)) as [Hle|Hgt].
      * by rewrite hide_walk_break.
      * rewrite drop_ge by lia. done.
    + intros j rc Hj Hrc. rewrite (Hlsb (NoDup_take_prefix _ _ (scan_NoDup _)) j rc); [done|].
      by rewrite lookup_take_lt.
Qed.

(** The walk that reaches, with digits left, a step whose transposed
    coordinate is outside the image: the write raises and nothing is saved. *)
Lemma hide_raises (k : nat) (rc : nat * nat) :
  valid_image im →
  cells !! k = Some rc →
  k < length bits →
  Forall (λ rc, inside im (transpose rc) = true) (take k cells) →
  inside im (transpose rc) = false →
  ∃ im',
    hide im message =
    (Exn IndexError, World im' None ((take k cells ≫= hide_events) ++ hide_events rc)).
Proof.
  intros Hv Hk Hlt Hin Hout.
  assert (k < length cells) as Hkc by by eapply lookup_lt_Some.
  assert (length (take k cells) = k) as Htake by (rewrite length_take; lia).
  destruct (hide_walk bits (take k cells) 0 (opened im)) as (im' & Hrun & Hsize & Hv' & _ & _).
  - done.
  - apply list.Forall_forall. intros rc' Hrc'. split.
    + apply scan_inside. by eapply elem_of_take_elem.
    + rewrite list.Forall_forall in Hin. by apply Hin.
  - rewrite Htake. lia.
  - exists im'. rewrite hide_unfold. rewrite <- (take_drop k cells) at 1.
    rewrite (drop_S _ _ _ Hk).
    unfold bind at 1. rewrite for_loop_app. unfold bind at 1.
    rewrite Hrun, Htake. cbv beta iota. unfold resume.
    rewrite for_loop_cons. unfold bind at 1.
    destruct (valid_pixel_at im' rc Hv') as (channel & rest & Hp).
    { unfold inside. rewrite Hsize. apply scan_inside. by eapply list_elem_of_lookup_2. }
    destruct (lookup_lt_is_Some_2 bits k Hlt) as [d Hd].
    rewrite (hide_step_outside bits rc k _ d channel rest); try done.
    unfold inside. cbn [img]. rewrite Hsize. exact Hout.
Qed.

End Hide.

(** ** The extraction walk *)

Section Extraction.
Implicit Types (im : image) (rc : nat * nat) (w : world) (buf s : binstr).

Lemma reveal_step_ok rc buf w b :
  lsb_at (img w) (transpose rc) = Some b →
  reveal_step rc buf w =
  (Val (if endswith (buf ++ [b]) delimeter
        then Return (binary_to_text (drop_last 16 (buf ++ [b])))
        else Continue (buf ++ [b])),
   World (img w) (saved w) (log w ++ [EvGet (transpose rc)])).
Proof.
  intros Hb. unfold reveal_step, reveal_body, bind.
  destruct rc as [row column]. unfold transpose in *. cbn [fst snd] in *.
  rewrite getitem_run. unfold lsb_at in Hb.
  destruct (pixel_at (img w) (column, row)) as [[|channel rest]|]; try done.
  simpl in Hb. injection Hb as <-. cbv beta iota. rewrite index_run.
  change ((channel :: rest) !! 0) with (Some channel). cbv beta iota.
  by destruct (endswith _ _).
Qed.

Lemma reveal_step_raises rc buf w :
  lsb_at (img w) (transpose rc) = None →
  reveal_step rc buf w =
  (Exn IndexError, World (img w) (saved w) (log w ++ [EvGet (transpose rc)])).
Proof.
  intros Hb. unfold reveal_step, reveal_body, bind.
  destruct rc as [row column]. unfold transpose in *. cbn [fst snd] in *.
  rewrite getitem_run. unfold lsb_at in Hb.
  destruct (pixel_at (img w) (column, row)) as [[|channel rest]|]; try done.
Qed.

Lemma first_match_Some buf s n :
  n < length s →
  endswith (buf ++ take (S n) s) delimeter = true →
  (∀ j, j < n → endswith (buf ++ take (S j) s) delimeter = false) →
  first_match buf s = Some n.
Proof.
  revert buf n. induction s as [|b s IH]; intros buf n Hn Hend Hfirst; simpl in Hn; [lia|].
  simpl first_match. destruct n as [|n].
  - change (endswith (buf ++ [b]) delimeter = true) in Hend. by rewrite Hend.
  - pose proof (Hfirst 0 ltac:(lia)) as H0.
    change (endswith (buf ++ [b]) delimeter = false) in H0. rewrite H0.
    rewrite (IH (buf ++ [b]) n); [done|lia| |].
    + by rewrite <- app_assoc.
    + intros j Hj. rewrite <- app_assoc. apply (Hfirst (S j)). lia.
Qed.

Lemma first_match_None buf s :
  (∀ j, j < length s → endswith (buf ++ take (S j) s) delimeter = false) →
  first_match buf s = None.
Proof.
  revert buf. induction s as [|b s IH]; intros buf Hnone; [done|].
  simpl first_match.
  pose proof (Hnone 0 ltac:(simpl; lia)) as H0.
  change (endswith (buf ++ [b]) delimeter = false) in H0. rewrite H0.
  rewrite (IH (buf ++ [b])); [done|].
  intros j Hj. rewrite <- app_assoc. apply (Hnone (S j)). simpl. lia.
Qed.

(** A stretch of the walk all of whose reads succeed: it returns at the first
    step after which the buffer ends with the delimeter, having read that far
    and no further, and otherwise runs through with the buffer extended. *)
Lemma reveal_walk (l : list (nat * nat)) : ∀ buf w s,
  mapM (λ rc, lsb_at (img w) (transpose rc)) l = Some s →
  for_loop l reveal_step buf w =
  match first_match buf s with
  | Some n =>
      (Val (Return (binary_to_text (drop_last 16 (buf ++ take (S n) s)))),
       World (img w) (saved w) (log w ++ (EvGet ∘ transpose <$> take (S n) l)))
  | None =>
      (Val (Continue (buf ++ s)),
       World (img w) (saved w) (log w ++ (EvGet ∘ transpose <$> l)))
  end.
Proof.
  induction l as [|rc l IH]; intros buf w s Hs.
  - injection Hs as <-. simpl. rewrite !app_nil_r. by destruct w.
  - apply mapM_Some in Hs. inversion Hs as [|? b ? s' Hb Hs']; subst.
    apply mapM_Some in Hs'.
    rewrite for_loop_cons. unfold bind at 1. rewrite (reveal_step_ok rc buf w b Hb).
    cbv beta iota. simpl first_match.
    destruct (endswith (buf ++ [b]) delimeter) eqn:Hend.
    + done.
    + unfold resume.
      rewrite (IH (buf ++ [b]) (World (img w) (saved w) (log w ++ [EvGet (transpose rc)])) s' Hs').
      cbn [img saved log].
      destruct (first_match (buf ++ [b]) s') as [n|]; simpl;
        by rewrite <- !app_assoc.
Qed.

End Extraction.

(** ** [reveal_message] as a whole *)

Section Reveal.
Variable im : image.
Local Abbreviation cells := (scan (size im)).

Lemma reveal_unfold :
  reveal im =
  bind (for_loop cells reveal_step [])
       (λ r, match r with Return text => ret text | _ => ret (str_of "ERROR") end)
       (opened im).
Proof.
  unfold reveal, reveal_message.
  unfold bind at 1. unfold image_size. cbv beta iota. unfold bind at 1.
  by rewrite for_loop_rows_plain.
Qed.

Lemma reads_length k b : reads im k = Some b → k ≤ pixel_count im → length b = k.
Proof.
  intros Hb Hk. apply length_mapM in Hb. rewrite <- Hb, length_take.
  rewrite scan_length. unfold pixel_count in Hk. lia.
Qed.

(** The first match ends the extraction: the decoded prefix is returned and
    the log holds the reads up to that step only. *)
Lemma reveal_returns (n : nat) (b : binstr) :
  n < pixel_count im →
  reads im (S n) = Some b →
  endswith b delimeter = true →
  (∀ j, j < n → endswith (take (S j) b) delimeter = false) →
  reveal im =
  (Val (binary_to_text (drop_last 16 b)),
   World im None (EvGet ∘ transpose <$> take (S n) cells)).
Proof.
  intros Hn Hb Hend Hfirst.
  assert (length b = S n) as Hlen by (apply reads_length; [done|lia]).
  rewrite reveal_unfold. rewrite <- (take_drop (S n) cells) at 1.
  unfold bind at 1. rewrite for_loop_app. unfold bind at 1.
  rewrite (reveal_walk (take (S n) cells) [] (opened im) b Hb).
  rewrite (first_match_Some [] b n); [| lia | |done].
  - cbv beta iota. unfold resume, ret. simpl.
    rewrite take_take, Nat.min_id. rewrite <- Hlen at 1. by rewrite take_ge.
  - simpl. rewrite <- Hlen. by rewrite take_ge.
Qed.

(** Exhausting the grid without a match gives the string "ERROR". *)
Lemma reveal_error (s : binstr) :
  reads im (pixel_count im) = Some s →
  (∀ j, j < length s → endswith (take (S j) s) delimeter = false) →
  reveal im = (Val (str_of "ERROR"), World im None (EvGet ∘ transpose <$> cells)).
Proof.
  intros Hs Hnone. unfold reads in Hs.
  rewrite take_ge in Hs by (by rewrite scan_length).
  rewrite reveal_unfold. unfold bind at 1.
  rewrite (reveal_walk cells [] (opened im) s Hs).
  by rewrite (first_match_None [] s Hnone).
Qed.

(** A read outside the image, reached without a match, raises. *)
Lemma reveal_raises (k : nat) (rc : nat * nat) (b : binstr) :
  cells !! k = Some rc →
  reads im k = Some b →
  (∀ j, j < k → endswith (take (S j) b) delimeter = false) →
  lsb_at im (transpose rc) = None →
  reveal im =
  (Exn IndexError,
   World im None ((EvGet ∘ transpose <$> take k cells) ++ [EvGet (transpose rc)])).
Proof.
  intros Hk Hb Hnone Hout.
  assert (k < length cells) as Hkc by by eapply lookup_lt_Some.
  assert (length b = k) as Hlen.
  { apply reads_length; [done|]. rewrite scan_length in Hkc.
    unfold pixel_count. lia. }
  rewrite reveal_unfold. rewrite <- (take_drop k cells) at 1.
  rewrite (drop_S _ _ _ Hk).
  unfold bind at 1. rewrite for_loop_app. unfold bind at 1.
  rewrite (reveal_walk (take k cells) [] (opened im) b Hb).
  rewrite (first_match_None [] b); [|intros j Hj; apply Hnone; lia].
  cbv beta iota. unfold resume. rewrite for_loop_cons. unfold bind at 1.
  by rewrite reveal_step_raises.
Qed.

End Reveal.

(** ** What the walks leave in the log, whatever the image *)

Section Logs.
Implicit Types (rc : nat * nat) (w : world) (l : list (nat * nat)).

Lemma gets_app (l1 l2 : list event) : gets (l1 ++ l2) = gets l1 ++ gets l2.
Proof. apply omap_app. Qed.

Lemma sets_app (l1 l2 : list event) : sets (l1 ++ l2) = sets l1 ++ sets l2.
Proof. apply omap_app. Qed.

Lemma gets_reads l : gets (EvGet ∘ transpose <$> l) = transpose <$> l.
Proof.
  induction l as [|rc l IH]; [done|].
  rewrite !fmap_cons. change (gets (?e :: ?t)) with (transpose rc :: gets t).
  by rewrite IH.
Qed.

Lemma sets_reads l : sets (EvGet ∘ transpose <$> l) = [].
Proof.
  induction l as [|rc l IH]; [done|].
  rewrite !fmap_cons. by change (sets (?e :: ?t)) with (sets t).
Qed.

Lemma gets_hide_events l : gets (l ≫= hide_events) = l.
Proof.
  induction l as [|rc l IH]; [done|].
  rewrite bind_cons, gets_app, IH. done.
Qed.

Lemma sets_hide_events l : sets (l ≫= hide_events) = transpose <$> l.
Proof.
  induction l as [|rc l IH]; [done|].
  rewrite bind_cons, sets_app, IH. done.
Qed.

(** A step of the embedding walk subscripts the pixels at [rc] for the read
    and then at [transpose rc] for the write; it goes on to the next step
    only after both. *)
Lemma hide_step_log bits rc i w r w' :
  hide_step bits rc i w = (r, w') →
  ∃ evs, log w' = log w ++ evs ∧
    ((evs = [] ∨ evs = [EvGet rc]) ∧ (∀ a, r ≠ Val (Continue a)) ∨ evs = hide_events rc).
Proof.
  unfold hide_step, hide_body. destruct rc as [row column]. cbn [fst snd].
  destruct (i <? length bits).
  - unfold bind. rewrite getitem_run.
    destruct (pixel_at (img w) (row, column)) as [p|]; cbv beta iota.
    + rewrite index_run. destruct (bits !! i) as [d|]; cbv beta iota.
      * rewrite index_run. destruct (p !! 0) as [channel|]; cbv beta iota.
        -- rewrite setitem_run. cbn [img saved log].
           destruct (inside (img w) (column, row)); intros [= <- <-]; cbn [log];
             exists (hide_events (row, column)); (split; [by rewrite <- app_assoc|by right]).
        -- intros [= <- <-]. exists [EvGet (row, column)]. split; [done|]. left. split; [by right|done].
      * intros [= <- <-]. exists [EvGet (row, column)]. split; [done|]. left. split; [by right|done].
    + intros [= <- <-]. exists [EvGet (row, column)]. split; [done|]. left. split; [by right|done].
  - intros [= <- <-]. exists []. split; [by rewrite app_nil_r|]. left. split; [by left|done].
Qed.

Lemma hide_walk_log bits l : ∀ i w r w',
  for_loop l (hide_step bits) i w = (r, w') →
  ∃ ng ns, ns ≤ ng ∧
    gets (log w') = gets (log w) ++ take ng l ∧
    sets (log w') = sets (log w) ++ (transpose <$> take ns l).
Proof.
  induction l as [|rc l IH]; intros i w r w'.
  - intros [= <- <-]. exists 0, 0. by rewrite !app_nil_r.
  - rewrite for_loop_cons. unfold bind.
    destruct (hide_step bits rc i w) as [r1 w1] eqn:Hstep.
    destruct (hide_step_log _ _ _ _ _ _ Hstep) as (evs & Hlog & Hevs).
    destruct Hevs as [[Hevs Hnc]| ->].
    + destruct r1 as [[a| |]|e]; [by destruct (Hnc a)| | |];
        unfold resume, ret; intros [= <- <-]; rewrite Hlog, gets_app, sets_app;
        (destruct Hevs as [-> | ->];
         [exists 0, 0; split; [lia|done]
         |exists 1, 0; split; [lia|]; simpl; by rewrite app_nil_r]).
    + destruct r1 as [[a| |]|e]; unfold resume, ret.
      2-4: intros [= <- <-]; exists 1, 1; rewrite Hlog, gets_app, sets_app; done.
      intros Hrest. destruct (IH _ _ _ _ Hrest) as (ng & ns & Hle & Hg & Hs).
      exists (S ng), (S ns). split; [lia|].
      rewrite Hg, Hs, Hlog, gets_app, sets_app. simpl. by rewrite <- !app_assoc.
Qed.

(** A step of the extraction walk subscripts the pixels once, at
    [transpose rc]. *)
Lemma reveal_step_log rc buf w r w' :
  reveal_step rc buf w = (r, w') → log w' = log w ++ [EvGet (transpose rc)].
Proof.
  destruct (lsb_at (img w) (transpose rc)) as [b|] eqn:Hb.
  - rewrite (reveal_step_ok _ _ _ _ Hb). by intros [= <- <-].
  - rewrite (reveal_step_raises _ _ _ Hb). by intros [= <- <-].
Qed.

Lemma reveal_walk_log l : ∀ buf w r w',
  for_loop l reveal_step buf w = (r, w') →
  ∃ n, log w' = log w ++ (EvGet ∘ transpose <$> take n l).
Proof.
  induction l as [|rc l IH]; intros buf w r w'.
  - intros [= <- <-]. exists 0. by rewrite app_nil_r.
  - rewrite for_loop_cons. unfold bind.
    destruct (reveal_step rc buf w) as [r1 w1] eqn:Hstep.
    pose proof (reveal_step_log _ _ _ _ _ Hstep) as Hlog.
    destruct r1 as [[a| |]|e]; unfold resume, ret.
    2-4: intros [= <- <-]; exists 1; by rewrite Hlog.
    intros Hrest. destruct (IH _ _ _ _ Hrest) as (n & Hn).
    exists (S n). rewrite Hn, Hlog. simpl. by rewrite <- app_assoc.
Qed.

Lemma hide_log im message :
  ∃ ng ns, ns ≤ ng ∧
    gets (log (hide im message).2) = take ng (scan (size im)) ∧
    sets (log (hide im message).2) = transpose <$> take ns (scan (size im)).
Proof.
  rewrite hide_unfold. unfold bind.
  destruct (for_loop _ _ 0 (opened im)) as [r w'] eqn:Hrun.
  destruct (hide_walk_log _ _ _ _ _ _ Hrun) as (ng & ns & Hle & Hg & Hs).
  exists ng, ns. by destruct r.
Qed.

Lemma reveal_log im :
  ∃ n, log (reveal im).2 = EvGet ∘ transpose <$> take n (scan (size im)).
Proof.
  rewrite reveal_unfold. unfold bind.
  destruct (for_loop _ _ [] (opened im)) as [r w'] eqn:Hrun.
  destruct (reveal_walk_log _ _ _ _ _ Hrun) as (n & Hn).
  exists n. destruct r as [[?|?|?]|?]; done.
Qed.

End Logs.

(** ** Hiding and then revealing *)

Section RoundTrip.

Lemma endswith_app (s d : binstr) : endswith (s ++ d) d = true.
Proof.
  unfold endswith. apply bool_decide_eq_true. rewrite length_app. split; [lia|].
  replace (length s + length d - length d) with (length s) by lia.
  by rewrite drop_app_length.
Qed.

Lemma endswith_short (s d : binstr) : length s < length d → endswith s d = false.
Proof. intros Hlt. unfold endswith. apply bool_decide_eq_false. lia. Qed.

Lemma drop_last_app (s d : binstr) : drop_last (length d) (s ++ d) = s.
Proof.
  unfold drop_last. rewrite length_app.
  replace (length s + length d - length d) with (length s) by lia.
  by rewrite take_app_length.
Qed.

(** A check of [sentinel_only_at_end] by evaluation. *)
Lemma sentinel_only_at_end_check (bits : binstr) :
  forallb (λ j, negb (endswith (take (S j) bits) delimeter)) (seq 0 (length bits - 1)) = true →
  sentinel_only_at_end bits.
Proof.
  rewrite forallb_forall. intros Hall j Hj.
  apply negb_true_iff, Hall, list_elem_of_In, elem_of_seq. lia.
Qed.

Lemma sentinel_only_at_end_delimeter : sentinel_only_at_end ([] ++ delimeter).
Proof. intros j Hj. apply endswith_short. rewrite length_take. simpl in *. lia. Qed.

(** On a square image with room for all digits, the image that [hide] saves
    gives the message back, provided no earlier window of the bitstream
    equals the delimeter. *)
Lemma roundtrip_square (im : image) (message : str) :
  valid_image im →
  square im →
  Forall (λ c, (c < 256)%N) message →
  length (text_to_binary message ++ delimeter) ≤ pixel_count im →
  sentinel_only_at_end (text_to_binary message ++ delimeter) →
  ∃ im', hidden im message = Some im' ∧ size im' = size im ∧ valid_image im' ∧
         (reveal im').1 = Val message.
Proof.
  intros Hv Hsq Hchars Hroom Hfree.
  set (bits := text_to_binary message ++ delimeter) in *.
  destruct (hide_completes im message (length bits)) as (im' & Hrun & Hsize & Hv' & _ & Hlsb).
  - done.
  - fold bits. lia.
  - by apply square_steps_inside.
  - exists im'. split; [|split; [done|split; [done|]]].
    { unfold hidden. by rewrite Hrun. }
    assert (0 < length bits) as Hpos by (unfold bits; rewrite length_app; simpl; lia).
    rewrite (reveal_returns im' (length bits - 1) bits).
    + simpl. unfold bits. change 16 with (length delimeter).
      rewrite drop_last_app. by rewrite binary_to_text_text_to_binary.
    + unfold pixel_count in *. rewrite Hsize. lia.
    + unfold reads. replace (S (length bits - 1)) with (length bits) by lia.
      apply mapM_Some_2, Forall2_same_length_lookup_2.
      * rewrite length_take, scan_length, Hsize. unfold pixel_count in Hroom. lia.
      * intros j rc d [Hrc Hj]%lookup_take_Some Hd.
        rewrite Hsize in Hrc. fold bits in Hlsb.
        rewrite (Hlsb j rc Hj Hrc). done.
    + apply endswith_app.
    + intros j Hj. apply Hfree. fold bits. lia.
Qed.

End RoundTrip.

(** ** Non-square images *)

Section NonSquare.
Variable im : image.
Hypothesis Hvalid : valid_image im.

(** On a valid image the reads of a stretch of steps whose transposed
    coordinates are inside all succeed. *)
Lemma reads_is_Some (k : nat) :
  Forall (λ rc, inside im (transpose rc) = true) (take k (scan (size im))) →
  is_Some (reads im k).
Proof.
  intros Hin. apply mapM_is_Some_2. eapply Forall_impl; [exact Hin|].
  intros rc Hrc. by apply valid_lsb_at.
Qed.

(** The first step of the scan whose transposed coordinate is outside: step
    [width] on an image higher than wide, step [height * height] on one
    wider than high. *)
Lemma first_outside :
  ¬ square im →
  ∃ k rc, scan (size im) !! k = Some rc ∧
          inside im rc = true ∧
          inside im (transpose rc) = false ∧
          Forall (λ rc, inside im (transpose rc) = true) (take k (scan (size im))).
Proof.
  destruct Hvalid as (HW & HH & _ & _). unfold square. intros Hne.
  destruct (size im) as [W H] eqn:Hsz. simpl in *.
  assert (∀ k, k < W * H → scan (W, H) !! k = Some (k / H, k mod H)) as Hlook
    by (intros k Hk; by apply scan_lookup).
  assert (∀ x y, inside im (x, y) = true ↔ x < W ∧ y < H) as Hins
    by (intros x y; by rewrite inside_spec, Hsz).
  assert (∀ k, (∀ j, j < k → j < W * H ∧ j mod H < W ∧ j / H < H) →
               Forall (λ rc, inside im (transpose rc) = true) (take k (scan (W, H)))) as Hall.
  { intros k Hk. apply Forall_lookup. intros j rc [Hrc Hj]%lookup_take_Some.
    destruct (Hk j Hj) as (Hlt & Hx & Hy). rewrite Hlook in Hrc by done.
    injection Hrc as <-. unfold transpose. simpl. by apply Hins. }
  destruct (decide (W < H)) as [Hlt|Hge].
  - exists W, (0, W). split; [|split; [|split]].
    + rewrite Hlook by nia. by rewrite Nat.div_small, Nat.mod_small.
    + apply Hins. lia.
    + apply not_true_is_false. unfold transpose. simpl. rewrite Hins. lia.
    + apply Hall. intros j Hj. rewrite Nat.div_small, Nat.mod_small by lia.
      split; [nia|lia].
  - assert (H < W) as Hgt by lia. exists (H * H), (H, 0). split; [|split; [|split]].
    + rewrite Hlook by nia. by rewrite Nat.div_mul, Nat.Div0.mod_mul by lia.
    + apply Hins. lia.
    + apply not_true_is_false. unfold transpose. simpl. rewrite Hins. lia.
    + apply Hall. intros j Hj.
      pose proof (Nat.mod_upper_bound j H ltac:(lia)).
      assert (j / H < H) by (apply Nat.Div0.div_lt_upper_bound; lia).
      split; [nia|lia].
Qed.

End NonSquare.

(** * The properties of the specification *)

(** A check of [valid_image] by evaluation. *)
Lemma valid_image_check (im : image) :
  bool_decide (0 < (size im).1 ∧ 0 < (size im).2 ∧
               length (raster im) = (size im).1 * (size im).2 ∧
               Forall (λ p, p ≠ []) (raster im)) = true →
  valid_image im.
Proof. intros H. by apply bool_decide_eq_true in H. Qed.

(** C7. Encoding: for a message whose characters all have code values in
    [0,255], [text_to_binary] yields, character after character and with
    nothing in between, the eight binary digits of each code value, so
    [8 * len(message)] digits in all.  (It is a function of the message alone:
    it takes no world and returns none.) *)
Theorem text_to_binary_bytes (message : str) :
  Forall (λ c, (c < 256)%N) message →
  text_to_binary message = message ≫= byte_bits ∧
  length (text_to_binary message) = 8 * length message.
Proof.
  intros Hchars. split; [|by apply text_to_binary_length].
  rewrite text_to_binary_bind.
  induction Hchars as [|c message Hc _ IH]; [done|].
  by rewrite !bind_cons, IH, format_08b_byte_bits.
Qed.

Lemma text_to_binary_bytes_witness :
  text_to_binary (str_of "Hi") = str_of "Hi" ≫= byte_bits ∧
  length (text_to_binary (str_of "Hi")) = 8 * length (str_of "Hi").
Proof.
  apply (text_to_binary_bytes (str_of "Hi")).
  repeat constructor.
Defined.

(** C6, as the code has it. Decoding: [binary_to_text] cuts the digits into
    consecutive runs of eight, reads each run as an unsigned number and maps
    it to the character of that code, in order; when the length is not a
    multiple of eight the last, shorter run is converted in the same way and
    gives one more character, so the output has ceil(len(bits)/8)
    characters. *)
Theorem binary_to_text_runs (bits : binstr) :
  binary_to_text bits = (λ k, chr (int2 (group8 bits k))) <$> seq 0 ((length bits + 7) / 8) ∧
  length (binary_to_text bits) = (length bits + 7) / 8.
Proof.
  rewrite binary_to_text_groups. split; [done|].
  by rewrite length_fmap, length_seq.
Qed.

(** C6, as stated, fails: three digits are not dropped, they decode to one
    character, where floor(3/8) is 0. *)
Lemma binary_to_text_partial_group_kept :
  binary_to_text [true; false; true] = [5%N] ∧
  length (binary_to_text [true; false; true]) ≠ length [true; false; true] / 8.
Proof. split; [reflexivity|]. vm_compute. discriminate. Qed.

(** C1, as the code has it by design. Round trip: for a message of code values
    in [0,255] whose bitstream (digits and delimeter) has no window equal to
    the delimeter before its end, and a square image of at least
    [8 * len(message) + 16] pixels, [reveal] on the image saved by [hide]
    returns the message. *)
Theorem roundtrip (im : image) (message : str) :
  valid_image im →
  square im →
  Forall (λ c, (c < 256)%N) message →
  8 * length message + 16 ≤ pixel_count im →
  sentinel_only_at_end (text_to_binary message ++ delimeter) →
  ∃ im', hidden im message = Some im' ∧ (reveal im').1 = Val message.
Proof.
  intros Hv Hsq Hchars Hroom Hfree.
  destruct (roundtrip_square im message) as (im' & Hhid & _ & _ & Hrev); try done.
  - rewrite length_app, text_to_binary_length by done. simpl. lia.
  - eauto.
Qed.

Lemma roundtrip_witness :
  ∃ im', hidden (plain 6 6 black) (str_of "Hi") = Some im' ∧
         (reveal im').1 = Val (str_of "Hi").
Proof.
  apply (roundtrip (plain 6 6 black) (str_of "Hi")).
  - apply valid_image_check. vm_compute. reflexivity.
  - reflexivity.
  - repeat constructor.
  - vm_compute. lia.
  - apply sentinel_only_at_end_check. vm_compute. reflexivity.
Defined.

(** C1, as stated, fails: the two code units 0xFF 0xFE fit in a square image
    of 36 pixels, and [reveal] on the saved image returns the empty string. *)
Lemma roundtrip_fails_on_embedded_sentinel :
  Forall (λ c, (c < 256)%N) [255; 254]%N ∧
  8 * length [255; 254]%N + 16 ≤ pixel_count (plain 6 6 black) ∧
  ∃ im', hidden (plain 6 6 black) [255; 254]%N = Some im' ∧
         (reveal im').1 = Val [] ∧
         (reveal im').1 ≠ Val [255; 254]%N.
Proof.
  split; [repeat constructor|]. split; [vm_compute; lia|].
  eexists. split; [vm_compute; reflexivity|].
  split; [vm_compute; reflexivity|]. vm_compute. discriminate.
Qed.

(** C4. Sentinel priority: when the reads of the first [n + 1] steps of
    [reveal_message] give a buffer that ends with the delimeter, and the
    buffer after no earlier step did, the extraction stops there: no further
    pixel is read, the last 16 digits are dropped and the decoding of what
    remains is returned, wherever in the image that window lies. *)
Theorem sentinel_priority (im : image) (n : nat) (b : binstr) :
  n < pixel_count im →
  reads im (S n) = Some b →
  endswith b delimeter = true →
  (∀ j, j < n → endswith (take (S j) b) delimeter = false) →
  (reveal im).1 = Val (binary_to_text (drop_last 16 b)) ∧
  log (reveal im).2 = EvGet ∘ transpose <$> take (S n) (scan (size im)) ∧
  length (log (reveal im).2) = S n.
Proof.
  intros Hn Hb Hend Hfirst.
  rewrite (reveal_returns im n b) by done. simpl.
  split; [done|]. split; [done|].
  rewrite length_fmap, length_take, scan_length. unfold pixel_count in Hn. lia.
Qed.

Lemma sentinel_priority_witness :
  (reveal sentinel_inside).1 = Val (binary_to_text (drop_last 16 delimeter)) ∧
  log (reveal sentinel_inside).2 =
    EvGet ∘ transpose <$> take 16 (scan (size sentinel_inside)) ∧
  length (log (reveal sentinel_inside).2) = 16.
Proof.
  apply (sentinel_priority sentinel_inside 15 delimeter).
  - vm_compute. lia.
  - vm_compute. reflexivity.
  - reflexivity.
  - intros j Hj. apply endswith_short. rewrite length_take. simpl. lia.
Defined.

(** The walk that raises has, up to the step that raises, written its digits
    as the walk that ends does. *)
Lemma hide_raises_digits (im : image) (message : str) (k : nat) (rc : nat * nat) :
  valid_image im →
  scan (size im) !! k = Some rc →
  k < length (text_to_binary message ++ delimeter) →
  Forall (λ rc, inside im (transpose rc) = true) (take k (scan (size im))) →
  inside im (transpose rc) = false →
  ∃ im',
    hide im message =
      (Exn IndexError,
       World im' None ((take k (scan (size im)) ≫= hide_events) ++ hide_events rc)) ∧
    ∀ j rc', j < k → scan (size im) !! j = Some rc' →
             lsb_at im' (transpose rc') = (text_to_binary message ++ delimeter) !! j.
Proof.
  intros Hv Hk Hlt Hin Hout.
  assert (k < length (scan (size im))) as Hkc by by eapply lookup_lt_Some.
  assert (length (take k (scan (size im))) = k) as Htake by (rewrite length_take; lia).
  destruct (hide_walk (text_to_binary message ++ delimeter) (take k (scan (size im))) 0 (opened im))
    as (im' & Hrun & Hsize & Hv' & _ & Hlsb).
  - done.
  - apply list.Forall_forall. intros rc' Hrc'. split.
    + apply scan_inside. by eapply elem_of_take_elem.
    + rewrite list.Forall_forall in Hin. by apply Hin.
  - rewrite Htake. lia.
  - exists im'. split.
    + rewrite hide_unfold. rewrite <- (take_drop k (scan (size im))) at 1.
      rewrite (drop_S _ _ _ Hk).
      unfold bind at 1. rewrite for_loop_app. unfold bind at 1.
      rewrite Hrun, Htake. cbv beta iota. unfold resume.
      rewrite for_loop_cons. unfold bind at 1.
      destruct (valid_pixel_at im' rc Hv') as (channel & rest & Hp).
      { unfold inside. rewrite Hsize. apply scan_inside. by eapply list_elem_of_lookup_2. }
      destruct (lookup_lt_is_Some_2 _ k Hlt) as [d Hd].
      rewrite (hide_step_outside _ rc k _ d channel rest); try done.
      unfold inside. cbn [img]. rewrite Hsize. exact Hout.
    + intros j rc' Hj Hrc'.
      rewrite (Hlsb (NoDup_take_prefix _ _ (scan_NoDup _)) j rc'); [done|].
      by rewrite lookup_take_lt.
Qed.

(** Every write subscript in the log of [hide_message] on a valid image
    belongs to a digit of the bitstream, and when the subscript is inside the
    image the pixel there ends with that digit as the lowest bit of its
    channel 0. *)
Lemma hide_written_digits (im : image) (message : str) (k : nat) (c : nat * nat) :
  valid_image im →
  sets (log (hide im message).2) !! k = Some c →
  ∃ d, (text_to_binary message ++ delimeter) !! k = Some d ∧
       (inside im c = true → lsb_at (img (hide im message).2) c = Some d).
Proof.
  intros Hv Hc.
  set (bits := text_to_binary message ++ delimeter) in *.
  set (n := length bits `min` pixel_count im).
  assert (∀ m, m ≤ n →
            Forall (λ rc, inside im (transpose rc) = true) (take m (scan (size im))) →
            m = n ∨ (m < n ∧ ∃ rc, scan (size im) !! m = Some rc ∧ inside im (transpose rc) = false) →
            ∃ d, bits !! k = Some d ∧
                 (inside im c = true → lsb_at (img (hide im message).2) c = Some d)) as Hcases.
  { intros m Hm Hin [->|(Hmn & rc & Hrc & Hout)].
    - destruct (hide_completes im message n Hv eq_refl Hin) as (im' & Hrun & _ & _ & _ & Hlsb).
      rewrite Hrun in Hc |- *. cbn [snd log img] in Hc |- *.
      rewrite sets_hide_events, list_lookup_fmap in Hc.
      destruct (take n (scan (size im)) !! k) as [rc|] eqn:Hrc; [|done].
      injection Hc as <-. apply lookup_take_Some in Hrc as [Hrc Hk].
      destruct (lookup_lt_is_Some_2 bits k) as [d Hd]; [unfold n in Hk; lia|].
      exists d. split; [done|]. intros _. by rewrite (Hlsb k rc Hk Hrc).
    - assert (m < pixel_count im) as Hmp.
      { apply lookup_lt_Some in Hrc. by rewrite scan_length in Hrc. }
      assert (m < length bits) as Hml by (unfold n in Hmn; lia).
      destruct (hide_raises_digits im message m rc Hv Hrc Hml Hin Hout) as (im' & Hrun & Hlsb).
      rewrite Hrun in Hc |- *. cbn [snd log img] in Hc |- *.
      rewrite sets_app, sets_hide_events in Hc.
      change (sets (hide_events rc)) with [transpose rc] in Hc.
      assert (length (transpose <$> take m (scan (size im))) = m) as Hlen
        by (rewrite length_fmap, length_take, scan_length; unfold pixel_count in Hmp; lia).
      destruct (decide (k < m)) as [Hk|Hk].
      + rewrite lookup_app_l, list_lookup_fmap in Hc by lia.
        destruct (take m (scan (size im)) !! k) as [rc'|] eqn:Hrc'; [|done].
        injection Hc as <-. apply lookup_take_Some in Hrc' as [Hrc' _].
        destruct (lookup_lt_is_Some_2 bits k) as [d Hd]; [lia|].
        exists d. split; [done|]. intros _. by rewrite (Hlsb k rc' Hk Hrc').
      + rewrite lookup_app_r, Hlen in Hc by lia.
        destruct (k - m) as [|?] eqn:Hkm; [|done]. injection Hc as <-.
        assert (k = m) as -> by lia.
        destruct (lookup_lt_is_Some_2 bits m Hml) as [d Hd].
        exists d. split; [done|]. intros Hins. congruence. }
  destruct (decide (square im)) as [Hsq|Hns].
  - apply (Hcases n); [lia|by apply square_steps_inside|by left].
  - destruct (first_outside im Hv Hns) as (k0 & rc0 & Hk0 & _ & Hout & Hbefore).
    destruct (decide (k0 < n)) as [Hlt|Hge].
    + apply (Hcases k0); [lia|done|]. right. eauto.
    + apply (Hcases n); [lia| |by left].
      replace (take n (scan (size im))) with (take n (take k0 (scan (size im))))
        by (rewrite take_take; f_equal; lia).
      by apply Forall_take.
Qed.

(** C3, as the code has it. Shared scan order: both walks take the loop
    variables (row, column) through the first axis in the outer loop and the
    second in the inner one, step [k] being (k div H, k mod H) for H the second
    side, and [hide_message] reads the pixel there; but the pixel whose
    embedding channel is accessed is the transposed one, (column, row), so the
    coordinates written by [hide_message] and read by [reveal_message] go
    (0,0),(1,0),...,(H-1,0),(0,1),...  That order is the same for the two: at
    every step [k] the coordinate at which [hide_message] writes (and where,
    when it is inside the image, digit [k] of the bitstream then is the lowest
    bit of channel 0) is the coordinate at which [reveal_message] reads on an
    image of the same size. *)
Theorem shared_access_order (im im2 : image) (message : str) (k : nat) (c c' : nat * nat) :
  valid_image im →
  size im2 = size im →
  sets (log (hide im message).2) !! k = Some c →
  gets (log (reveal im2).2) !! k = Some c' →
  c = c' ∧
  c = (k mod (size im).2, k / (size im).2) ∧
  scan (size im) !! k = Some (k / (size im).2, k mod (size im).2) ∧
  scan (size im2) !! k = Some (k / (size im).2, k mod (size im).2) ∧
  gets (log (hide im message).2) !! k = Some (k / (size im).2, k mod (size im).2) ∧
  ∃ d, (text_to_binary message ++ delimeter) !! k = Some d ∧
       (inside im c = true → lsb_at (img (hide im message).2) c = Some d).
Proof.
  intros Hv Hsize Hw Hr.
  pose proof (hide_written_digits im message k c Hv Hw) as Hdigit.
  destruct (hide_log im message) as (ng & ns & Hle & Hg & Hs).
  destruct (reveal_log im2) as (n & Hn).
  rewrite Hs, list_lookup_fmap in Hw. rewrite Hn, gets_reads, list_lookup_fmap, Hsize in Hr.
  destruct (take ns (scan (size im)) !! k) as [rc|] eqn:Hrc; [|done].
  destruct (take n (scan (size im)) !! k) as [rc'|] eqn:Hrc'; [|done].
  simpl in Hw, Hr. injection Hw as <-. injection Hr as <-.
  apply lookup_take_Some in Hrc as [Hrc Hk]. apply lookup_take_Some in Hrc' as [Hrc' _].
  assert (rc' = rc) as -> by congruence.
  split; [done|].
  destruct (scan_lookup_Some _ _ _ Hrc) as [_ ->].
  rewrite Hsize, Hg, lookup_take_lt by lia. done.
Qed.

Lemma shared_access_order_witness :
  (1, 0) = (1, 0) ∧
  (1, 0) = (1 mod (size (plain 2 2 black)).2, 1 / (size (plain 2 2 black)).2) ∧
  scan (size (plain 2 2 black)) !! 1 =
    Some (1 / (size (plain 2 2 black)).2, 1 mod (size (plain 2 2 black)).2) ∧
  scan (size (coordinates 2)) !! 1 =
    Some (1 / (size (plain 2 2 black)).2, 1 mod (size (plain 2 2 black)).2) ∧
  gets (log (hide (plain 2 2 black) (str_of "Hi")).2) !! 1 =
    Some (1 / (size (plain 2 2 black)).2, 1 mod (size (plain 2 2 black)).2) ∧
  ∃ d, (text_to_binary (str_of "Hi") ++ delimeter) !! 1 = Some d ∧
       (inside (plain 2 2 black) (1, 0) = true →
        lsb_at (img (hide (plain 2 2 black) (str_of "Hi")).2) (1, 0) = Some d).
Proof.
  apply (shared_access_order (plain 2 2 black) (coordinates 2) (str_of "Hi") 1 (1, 0) (1, 0)).
  - apply valid_image_check. vm_compute. reflexivity.
  - reflexivity.
  - vm_compute. reflexivity.
  - vm_compute. reflexivity.
Defined.

(** C3, as stated, fails: on a black image of 2 by 2 the second coordinate
    that [hide_message] writes and that [reveal_message] reads is (1, 0), along
    the first axis, where the stated order (0,0),(0,1),... has (0, 1); the
    whole order of the accesses is (0,0),(1,0),(0,1),(1,1). *)
Lemma accessed_order_is_transposed :
  scan (size (plain 2 2 black)) = [(0, 0); (0, 1); (1, 0); (1, 1)] ∧
  sets (log (hide (plain 2 2 black) (str_of "")).2) = [(0, 0); (1, 0); (0, 1); (1, 1)] ∧
  gets (log (reveal (plain 2 2 black)).2) = [(0, 0); (1, 0); (0, 1); (1, 1)] ∧
  gets (log (reveal (plain 2 2 black)).2) !! 1 ≠ Some (0, 1).
Proof. repeat (split; [reflexivity|]). discriminate. Qed.

Lemma last_hide_events (l : list event) (rc : nat * nat) :
  last (l ++ hide_events rc) = Some (EvSet (transpose rc)).
Proof.
  unfold hide_events. change [EvGet rc; EvSet (transpose rc)] with ([EvGet rc] ++ [EvSet (transpose rc)]).
  rewrite app_assoc. apply last_snoc.
Qed.

(** Both walks end normally on a square image. *)
Lemma square_total (im : image) :
  valid_image im → square im →
  (∀ message, (hide im message).1 = Val tt ∧ is_Some (hidden im message)) ∧
  ∃ text, (reveal im).1 = Val text.
Proof.
  intros Hv Hsq. split.
  - intros message.
    destruct (hide_completes im message _ Hv eq_refl) as (im' & Hrun & _).
    + by apply square_steps_inside.
    + unfold hidden. rewrite Hrun. eauto.
  - destruct (reads_is_Some im Hv (pixel_count im)) as [s Hs].
    + by apply square_steps_inside.
    + unfold reads in Hs. rewrite take_ge in Hs by (by rewrite scan_length).
      rewrite reveal_unfold. unfold bind.
      rewrite (reveal_walk (scan (size im)) [] (opened im) s Hs).
      destruct (first_match [] s); eauto.
Qed.

(** C10. The walks are total on square grids only: [hide_message] takes [row]
    through the first side and [column] through the second, reads at
    (row, column) and writes at (column, row); [reveal_message] reads at
    (column, row).  On every grid whose sides differ some visited step has its
    transposed coordinate outside the grid; [hide_message] raises at the
    first such step when digits are left at it, and [reveal_message] raises
    there when no match came before; on a square grid both end normally. *)
Theorem transposed_access (im : image) :
  valid_image im →
  (∀ message k c,
     gets (log (hide im message).2) !! k = Some c → scan (size im) !! k = Some c) ∧
  (∀ message k c,
     sets (log (hide im message).2) !! k = Some c →
     ∃ rc, scan (size im) !! k = Some rc ∧ c = transpose rc) ∧
  (∀ k c,
     gets (log (reveal im).2) !! k = Some c →
     ∃ rc, scan (size im) !! k = Some rc ∧ c = transpose rc) ∧
  (¬ square im →
   ∃ k rc b,
     scan (size im) !! k = Some rc ∧
     inside im rc = true ∧
     inside im (transpose rc) = false ∧
     reads im k = Some b ∧
     (∀ message,
        k < length (text_to_binary message ++ delimeter) →
        (hide im message).1 = Exn IndexError ∧
        hidden im message = None ∧
        last (log (hide im message).2) = Some (EvSet (transpose rc))) ∧
     ((∀ j, j < k → endswith (take (S j) b) delimeter = false) →
      (reveal im).1 = Exn IndexError ∧
      last (log (reveal im).2) = Some (EvGet (transpose rc)))) ∧
  (square im →
   (∀ message, (hide im message).1 = Val tt ∧ is_Some (hidden im message)) ∧
   ∃ text, (reveal im).1 = Val text).
Proof.
  intros Hv. split; [|split; [|split; [|split]]].
  - intros message k c Hc.
    destruct (hide_log im message) as (ng & ns & _ & Hg & _).
    rewrite Hg in Hc. by apply lookup_take_Some in Hc as [? _].
  - intros message k c Hc.
    destruct (hide_log im message) as (ng & ns & _ & _ & Hs).
    rewrite Hs, list_lookup_fmap in Hc.
    destruct (take ns (scan (size im)) !! k) as [rc|] eqn:Hrc; [|done].
    injection Hc as <-. apply lookup_take_Some in Hrc as [? _]. eauto.
  - intros k c Hc.
    destruct (reveal_log im) as (n & Hn).
    rewrite Hn, gets_reads, list_lookup_fmap in Hc.
    destruct (take n (scan (size im)) !! k) as [rc|] eqn:Hrc; [|done].
    injection Hc as <-. apply lookup_take_Some in Hrc as [? _]. eauto.
  - intros Hns.
    destruct (first_outside im Hv Hns) as (k & rc & Hk & Hin & Hout & Hbefore).
    destruct (reads_is_Some im Hv k Hbefore) as [b Hb].
    exists k, rc, b. repeat (split; [done|]). split.
    + intros message Hlt.
      destruct (hide_raises im message k rc Hv Hk Hlt Hbefore Hout) as (im' & Hrun).
      unfold hidden. rewrite Hrun. cbn [fst snd saved log].
      split; [done|]. split; [done|]. apply last_hide_events.
    + intros Hnone.
      rewrite (reveal_raises im k rc b Hk Hb Hnone (lsb_at_outside _ _ Hout)).
      cbn [fst snd saved log]. split; [done|]. apply last_snoc.
  - intros Hsq. by apply square_total.
Qed.

Lemma transposed_access_witness :
  let im := plain 1 2 black in
  (∀ message k c,
     gets (log (hide im message).2) !! k = Some c → scan (size im) !! k = Some c) ∧
  (∀ message k c,
     sets (log (hide im message).2) !! k = Some c →
     ∃ rc, scan (size im) !! k = Some rc ∧ c = transpose rc) ∧
  (∀ k c,
     gets (log (reveal im).2) !! k = Some c →
     ∃ rc, scan (size im) !! k = Some rc ∧ c = transpose rc) ∧
  (¬ square im →
   ∃ k rc b,
     scan (size im) !! k = Some rc ∧
     inside im rc = true ∧
     inside im (transpose rc) = false ∧
     reads im k = Some b ∧
     (∀ message,
        k < length (text_to_binary message ++ delimeter) →
        (hide im message).1 = Exn IndexError ∧
        hidden im message = None ∧
        last (log (hide im message).2) = Some (EvSet (transpose rc))) ∧
     ((∀ j, j < k → endswith (take (S j) b) delimeter = false) →
      (reveal im).1 = Exn IndexError ∧
      last (log (reveal im).2) = Some (EvGet (transpose rc)))) ∧
  (square im →
   (∀ message, (hide im message).1 = Val tt ∧ is_Some (hidden im message)) ∧
   ∃ text, (reveal im).1 = Val text).
Proof.
  intros im. apply (transposed_access (plain 1 2 black)).
  apply valid_image_check. vm_compute. reflexivity.
Defined.

(** ** Where the transposed write breaks the specification *)

(** C2. Frame condition of [hide]: the code does not keep it.  In the square
    image whose pixel at (x, y) is (0, x, y), hiding the empty message takes 16
    steps; the pixel at (4, 0) is visited at step 20 only, yet step 4 reads the
    tuple at (0, 4) and writes it at (4, 0), so its channels 1 and 2 change
    from 4, 0 to 0, 4. *)
Theorem hide_writes_the_tuple_read_elsewhere :
  length (text_to_binary [] ++ delimeter) = 16 ∧
  scan (size (coordinates 5)) !! 20 = Some (4, 0) ∧
  pixel_at (coordinates 5) (4, 0) = Some [0; 4; 0]%Z ∧
  ∃ im', hidden (coordinates 5) [] = Some im' ∧
         pixel_at im' (4, 0) = Some [1; 0; 4]%Z.
Proof.
  split; [reflexivity|]. split; [reflexivity|]. split; [reflexivity|].
  eexists. split; vm_compute; reflexivity.
Qed.

(** C5. No-message case: on a black image one pixel wide and two high no
    buffer ever ends with the delimeter, and [reveal_message] raises at its
    second read, at (1, 0), where the specification has it return "ERROR". *)
Theorem reveal_raises_without_message :
  reads (plain 1 2 black) 1 = Some [false] ∧
  log (reveal (plain 1 2 black)).2 = [EvGet (0, 0); EvGet (1, 0)] ∧
  (reveal (plain 1 2 black)).1 = Exn IndexError ∧
  (reveal (plain 1 2 black)).1 ≠ Val (str_of "ERROR").
Proof. repeat (split; [reflexivity|]). discriminate. Qed.

(** What the specification says does hold when every read succeeds, which on
    a valid image is when the image is square. *)
Lemma reveal_error_square (im : image) (s : binstr) :
  reads im (pixel_count im) = Some s →
  (∀ j, j < length s → endswith (take (S j) s) delimeter = false) →
  (reveal im).1 = Val (str_of "ERROR").
Proof. intros Hs Hnone. by rewrite (reveal_error im s Hs Hnone). Qed.

(** C8. Empty message: on a black image 16 wide and one high, [hide_message]
    with the empty message raises at its second write, at (0, 1), and saves
    nothing, where the specification has the 16 digits of the delimeter
    embedded. *)
Theorem hide_empty_message_raises :
  16 ≤ pixel_count (plain 16 1 black) ∧
  sets (log (hide (plain 16 1 black) []).2) = [(0, 0); (0, 1)] ∧
  (hide (plain 16 1 black) []).1 = Exn IndexError ∧
  hidden (plain 16 1 black) [] = None.
Proof. split; [vm_compute; lia|]. repeat split; reflexivity. Qed.

(** On a square image of at least 16 pixels the empty message is embedded as
    the 16 digits of the delimeter, in 16 steps, and revealed as "". *)
Lemma empty_message_square (im : image) :
  valid_image im → square im → 16 ≤ pixel_count im →
  ∃ im', hide im [] = (Val tt, World im' (Some im') (take 16 (scan (size im)) ≫= hide_events)) ∧
         reads im' 16 = Some delimeter ∧
         (reveal im').1 = Val [].
Proof.
  intros Hv Hsq Hroom.
  destruct (hide_completes im [] 16 Hv) as (im' & Hrun & Hsize & Hv' & _ & Hlsb).
  { change (length (text_to_binary [] ++ delimeter)) with 16. lia. }
  { by apply square_steps_inside. }
  destruct (roundtrip_square im []) as (im'' & Hhid & _ & _ & Hrev); try done.
  { apply sentinel_only_at_end_delimeter. }
  unfold hidden in Hhid. rewrite Hrun in Hhid. injection Hhid as <-.
  exists im'. split; [done|]. split; [|done].
  unfold reads. apply mapM_Some_2, Forall2_same_length_lookup_2.
  - rewrite length_take, scan_length, Hsize. unfold pixel_count in Hroom.
    change (length delimeter) with 16. lia.
  - intros j rc d [Hrc Hj]%lookup_take_Some Hd. rewrite Hsize in Hrc.
    by rewrite (Hlsb j rc Hj Hrc).
Qed.

(** C9. Capacity exhaustion: on a black image one pixel wide and two high,
    with the 24 digits of "A" and the delimeter to embed, [hide_message]
    raises at its second write, at (1, 0), and saves nothing, where the
    specification has it write one digit per pixel and save. *)
Theorem hide_short_image_raises :
  pixel_count (plain 1 2 black) < length (text_to_binary (str_of "A") ++ delimeter) ∧
  sets (log (hide (plain 1 2 black) (str_of "A")).2) = [(0, 0); (1, 0)] ∧
  (hide (plain 1 2 black) (str_of "A")).1 = Exn IndexError ∧
  hidden (plain 1 2 black) (str_of "A") = None.
Proof. split; [vm_compute; lia|]. repeat split; reflexivity. Qed.

(** On a square image with fewer pixels than digits every pixel gets one
    digit, nothing is raised and the image is saved. *)
Lemma capacity_exhaustion_square (im : image) (message : str) :
  valid_image im → square im →
  pixel_count im < length (text_to_binary message ++ delimeter) →
  ∃ im', hide im message = (Val tt, World im' (Some im') (scan (size im) ≫= hide_events)) ∧
         ∀ j rc, scan (size im) !! j = Some rc →
                 lsb_at im' (transpose rc) = (text_to_binary message ++ delimeter) !! j.
Proof.
  intros Hv Hsq Hshort.
  destruct (hide_completes im message (pixel_count im) Hv) as (im' & Hrun & _ & _ & _ & Hlsb).
  { lia. }
  { by apply square_steps_inside. }
  rewrite take_ge in Hrun by (by rewrite scan_length).
  exists im'. split; [done|]. intros j rc Hrc. apply Hlsb; [|done].
  apply lookup_lt_Some in Hrc. by rewrite scan_length in Hrc.
Qed.

Example hide_one_pixel :
  hide (plain 1 1 black) (str_of "AB") =
  (Val tt, World (plain 1 1 black) (Some (plain 1 1 black)) [EvGet (0, 0); EvSet (0, 0)]).
Proof. reflexivity. Qed.

(** * Further properties of the code *)

(** ** The codec on its own *)

Section CodecMore.

(** Whatever the digits, every decoded character is a code unit. *)
Lemma binary_to_text_range (bits : binstr) :
  Forall (λ c, (c < 256)%N) (binary_to_text bits).
Proof.
  rewrite binary_to_text_groups. apply list.Forall_forall.
  intros c [k [-> _]]%list_elem_of_fmap. apply group8_code_unit.
Qed.

Lemma int2_format_b (c : N) : int2 (format_b c) = c.
Proof. destruct c as [|p]; [done|apply int2_pos_digits]. Qed.

Lemma format_b_wide (c : N) : (256 ≤ c)%N → 8 < length (format_b c).
Proof.
  intros Hc. pose proof (int2_bound (format_b c)) as Hb. rewrite int2_format_b in Hb.
  destruct (decide (8 < length (format_b c))) as [|Hle]; [done|].
  assert (2 ^ N.of_nat (length (format_b c)) ≤ 2 ^ 8)%N by (apply N.pow_le_mono_r; lia).
  change (2 ^ 8)%N with 256%N in *. lia.
Qed.

Lemma format_08b_length_8 (c : N) : length (format_08b c) = 8 ↔ (c < 256)%N.
Proof.
  split; [|apply format_08b_length].
  intros Hlen. destruct (decide (c < 256)%N) as [|Hge]; [done|].
  pose proof (format_b_wide c ltac:(lia)) as Hw.
  unfold format_08b in Hlen. rewrite length_app, length_replicate in Hlen. lia.
Qed.

Lemma text_to_binary_singleton (c : N) : text_to_binary [c] = format_08b c.
Proof. by rewrite text_to_binary_cons, app_nil_r. Qed.

Lemma text_to_binary_app (a b : str) :
  text_to_binary (a ++ b) = text_to_binary a ++ text_to_binary b.
Proof. rewrite !text_to_binary_bind. apply bind_app. Qed.

(** Eight digits are the digits of their own value. *)
Lemma format_08b_int2 (byte : binstr) : length byte = 8 → format_08b (int2 byte) = byte.
Proof.
  intros Hlen.
  do 8 (destruct byte as [|? byte]; [done|]). destruct byte; [|done].
  repeat match goal with b : bool |- _ => destruct b end; reflexivity.
Qed.

Lemma text_to_binary_binary_to_text_bytes (k : nat) : ∀ bits : binstr,
  length bits = 8 * k → text_to_binary (binary_to_text bits) = bits.
Proof.
  induction k as [|k IH]; intros bits Hlen.
  - by destruct bits.
  - rewrite <- (take_drop 8 bits).
    assert (length (take 8 bits) = 8) as H8 by (rewrite length_take; lia).
    rewrite binary_to_text_app8, text_to_binary_cons by done.
    unfold chr. rewrite format_08b_int2 by done. f_equal.
    apply IH. rewrite length_drop. lia.
Qed.

Lemma binary_to_text_prefix (a : str) (bits : binstr) :
  Forall (λ c, (c < 256)%N) a →
  binary_to_text (text_to_binary a ++ bits) = a ++ binary_to_text bits.
Proof.
  induction 1 as [|c a Hc _ IH]; [done|].
  rewrite text_to_binary_cons, <- app_assoc, binary_to_text_app8 by by apply format_08b_length.
  by rewrite int2_format_08b, IH.
Qed.

End CodecMore.

(** X1. A message survives encoding and decoding exactly when all its
    characters have code values below 256. *)
Theorem codec_roundtrip_iff (message : str) :
  binary_to_text (text_to_binary message) = message ↔ Forall (λ c, (c < 256)%N) message.
Proof.
  split.
  - intros <-. apply binary_to_text_range.
  - apply binary_to_text_text_to_binary.
Qed.

(** X2. Digits survive decoding and encoding exactly when their number is a
    multiple of eight. *)
Theorem codec_reverse_roundtrip_iff (bits : binstr) :
  text_to_binary (binary_to_text bits) = bits ↔ length bits mod 8 = 0.
Proof.
  split.
  - intros Heq. apply (f_equal length) in Heq.
    rewrite text_to_binary_length in Heq by apply binary_to_text_range.
    rewrite <- Heq, Nat.mul_comm. apply Nat.Div0.mod_mul.
  - intros Hmod. apply (text_to_binary_binary_to_text_bytes (length bits / 8)).
    pose proof (Nat.div_mod_eq (length bits) 8). lia.
Qed.

(** X3. No digit of a character is cut: the digits of any one character have
    its code as their value, and they are eight exactly when the code is
    below 256 (longer from 256 on). *)
Theorem text_to_binary_char_width (c : N) :
  int2 (text_to_binary [c]) = c ∧
  8 ≤ length (text_to_binary [c]) ∧
  (length (text_to_binary [c]) = 8 ↔ (c < 256)%N).
Proof.
  rewrite text_to_binary_singleton. split; [apply int2_format_08b|]. split.
  - unfold format_08b. rewrite length_app, length_replicate. lia.
  - apply format_08b_length_8.
Qed.

(** X4. Whatever digits it is given, [binary_to_text] returns characters with
    code values below 256 only. *)
Theorem binary_to_text_code_units (bits : binstr) :
  Forall (λ c, (c < 256)%N) (binary_to_text bits).
Proof. apply binary_to_text_range. Qed.

(** X5. Decoding goes character by character: the digits of an 8-bit text
    followed by any digits decode to that text followed by the decoding of
    the rest. *)
Theorem binary_to_text_after_text (a : str) (bits : binstr) :
  Forall (λ c, (c < 256)%N) a →
  binary_to_text (text_to_binary a ++ bits) = a ++ binary_to_text bits.
Proof. apply binary_to_text_prefix. Qed.

Lemma binary_to_text_after_text_witness :
  binary_to_text (text_to_binary (str_of "Hi") ++ [true; false; true]) =
  str_of "Hi" ++ binary_to_text [true; false; true].
Proof.
  apply (binary_to_text_after_text (str_of "Hi") [true; false; true]).
  repeat constructor.
Defined.

(** ** What the walks keep, on any image *)

Section Frames.
Implicit Types (rc : nat * nat) (w : world) (l : list (nat * nat)).

Lemma reveal_step_frame rc buf w r w' :
  reveal_step rc buf w = (r, w') → img w' = img w ∧ saved w' = saved w.
Proof.
  destruct (lsb_at (img w) (transpose rc)) as [b|] eqn:Hb.
  - rewrite (reveal_step_ok _ _ _ _ Hb). by intros [= <- <-].
  - rewrite (reveal_step_raises _ _ _ Hb). by intros [= <- <-].
Qed.

Lemma reveal_walk_frame l : ∀ buf w r w',
  for_loop l reveal_step buf w = (r, w') → img w' = img w ∧ saved w' = saved w.
Proof.
  induction l as [|rc l IH]; intros buf w r w'.
  - by intros [= <- <-].
  - rewrite for_loop_cons. unfold bind.
    destruct (reveal_step rc buf w) as [r1 w1] eqn:Hstep.
    destruct (reveal_step_frame _ _ _ _ _ Hstep) as [Himg Hsaved].
    destruct r1 as [[a| |]|e]; unfold resume, ret.
    2-4: by intros [= <- <-].
    intros Hrest. destruct (IH _ _ _ _ Hrest) as [-> ->]. done.
Qed.

Lemma hide_step_frame bits rc i w r w' :
  hide_step bits rc i w = (r, w') →
  saved w' = saved w ∧ size (img w') = size (img w) ∧
  length (raster (img w')) = length (raster (img w)).
Proof.
  unfold hide_step, hide_body. destruct rc as [row column]. cbn [fst snd].
  destruct (i <? length bits); [|by intros [= <- <-]].
  unfold bind. rewrite getitem_run.
  destruct (pixel_at (img w) (row, column)) as [p|]; cbv beta iota; [|by intros [= <- <-]].
  rewrite index_run. destruct (bits !! i) as [d|]; cbv beta iota; [|by intros [= <- <-]].
  rewrite index_run. destruct (p !! 0) as [channel|]; cbv beta iota; [|by intros [= <- <-]].
  rewrite setitem_run. cbn [img saved log].
  destruct (inside (img w) (column, row)); intros [= <- <-]; cbn [img saved]; [|done].
  unfold put. cbn [size raster]. by rewrite length_insert.
Qed.

Lemma hide_walk_frame bits l : ∀ i w r w',
  for_loop l (hide_step bits) i w = (r, w') →
  saved w' = saved w ∧ size (img w') = size (img w) ∧
  length (raster (img w')) = length (raster (img w)).
Proof.
  induction l as [|rc l IH]; intros i w r w'.
  - by intros [= <- <-].
  - rewrite for_loop_cons. unfold bind.
    destruct (hide_step bits rc i w) as [r1 w1] eqn:Hstep.
    destruct (hide_step_frame _ _ _ _ _ _ Hstep) as (Hsaved & Hsize & Hlen).
    destruct r1 as [[a| |]|e]; unfold resume, ret.
    2-4: by intros [= <- <-].
    intros Hrest. destruct (IH _ _ _ _ Hrest) as (-> & -> & ->). done.
Qed.

(** The only exception of the model is the one the subscripts raise. *)
Lemma exn_IndexError (e : exn) : e = IndexError.
Proof. by destruct e. Qed.

End Frames.

(** X6. [reveal_message] only reads: whatever the image and whether it
    returns or raises, the image is left as it was opened, no pixel is
    assigned and nothing is saved. *)
Theorem reveal_read_only (im : image) :
  img (reveal im).2 = im ∧
  saved (reveal im).2 = None ∧
  sets (log (reveal im).2) = [].
Proof.
  destruct (reveal_log im) as (n & Hn). rewrite Hn, sets_reads.
  rewrite reveal_unfold. unfold bind.
  destruct (for_loop _ _ [] (opened im)) as [r w'] eqn:Hrun.
  destruct (reveal_walk_frame _ _ _ _ _ Hrun) as [Himg Hsaved].
  destruct r as [[?|?|?]|?]; done.
Qed.

(** X7. [hide_message] saves exactly when it returns: on any image and
    message it either returns and the saved file is the image as the walk left
    it, or raises IndexError and saves nothing; either way the size and the
    number of pixels of the image are as they were. *)
Theorem hide_saves_iff_returns (im : image) (message : str) :
  size (img (hide im message).2) = size im ∧
  length (raster (img (hide im message).2)) = length (raster im) ∧
  ((hide im message).1 = Val tt ∧ hidden im message = Some (img (hide im message).2) ∨
   (hide im message).1 = Exn IndexError ∧ hidden im message = None).
Proof.
  unfold hidden. rewrite hide_unfold. unfold bind.
  destruct (for_loop _ _ 0 (opened im)) as [r w'] eqn:Hrun.
  destruct (hide_walk_frame _ _ _ _ _ _ Hrun) as (Hsaved & Hsize & Hlen).
  destruct r as [c|e]; cbn [fst snd save img saved].
  - split; [done|]. split; [done|]. by left.
  - split; [done|]. split; [done|]. right. by rewrite (exn_IndexError e).
Qed.

(** ** How far the embedding walk gets *)

Section Reach.
Variable im : image.
Hypothesis Hvalid : valid_image im.
Local Abbreviation cells := (scan (size im)).

Lemma reach_square : square im → reach im = pixel_count im.
Proof.
  unfold square, reach, pixel_count. intros ->.
  by rewrite Nat.ltb_irrefl.
Qed.

Lemma reach_le_pixel_count : reach im ≤ pixel_count im.
Proof.
  destruct Hvalid as (HW & HH & _). unfold reach, pixel_count.
  destruct (Nat.ltb_spec (size im).1 (size im).2); nia.
Qed.

Lemma reach_lt_pixel_count : ¬ square im → reach im < pixel_count im.
Proof.
  destruct Hvalid as (HW & HH & _). unfold square, reach, pixel_count. intros Hne.
  destruct (Nat.ltb_spec (size im).1 (size im).2); nia.
Qed.

Lemma reach_inside (k : nat) :
  k ≤ reach im → Forall (λ rc, inside im (transpose rc) = true) (take k cells).
Proof.
  destruct Hvalid as (HW & HH & _). intros Hk.
  apply Forall_lookup. intros j rc [Hrc Hj]%lookup_take_Some.
  destruct (scan_lookup_Some _ _ _ Hrc) as [Hlt ->].
  apply inside_spec. unfold transpose. cbn [fst snd].
  pose proof (Nat.mod_upper_bound j (size im).2 ltac:(lia)).
  unfold reach in Hk. destruct (Nat.ltb_spec (size im).1 (size im).2).
  - rewrite Nat.div_small, Nat.mod_small by lia. lia.
  - assert (j / (size im).2 < (size im).2) by (apply Nat.Div0.div_lt_upper_bound; lia).
    lia.
Qed.

Lemma reach_outside :
  ¬ square im → ∃ rc, cells !! reach im = Some rc ∧ inside im (transpose rc) = false.
Proof.
  intros Hns. pose proof (reach_lt_pixel_count Hns) as Hlt.
  destruct Hvalid as (HW & HH & _). unfold square in Hns. unfold pixel_count in Hlt.
  exists (reach im / (size im).2, reach im mod (size im).2).
  split; [by apply scan_lookup|].
  apply not_true_is_false. rewrite inside_spec. unfold transpose. cbn [fst snd].
  unfold reach. destruct (Nat.ltb_spec (size im).1 (size im).2).
  - rewrite Nat.mod_small by lia. lia.
  - rewrite Nat.div_mul by lia. lia.
Qed.

(** When the steps it takes all write inside the image, the walk ends
    normally; the saved image has the digits of those steps as the lowest
    bits of channel 0 in the order in which [reveal_message] reads them, and
    keeps every pixel that is not at the transpose of one of those steps. *)
Lemma hide_embeds (message : str) (n : nat) :
  n = length (text_to_binary message ++ delimeter) `min` pixel_count im →
  n ≤ reach im →
  ∃ im',
    hide im message = (Val tt, World im' (Some im') (take n cells ≫= hide_events)) ∧
    size im' = size im ∧ valid_image im' ∧
    reads im' n = Some (take n (text_to_binary message ++ delimeter)) ∧
    (∀ xy, xy ∉ transpose <$> take n cells → pixel_at im' xy = pixel_at im xy).
Proof.
  intros Hn Hreach.
  destruct (hide_completes im message n Hvalid Hn (reach_inside n Hreach))
    as (im' & Hrun & Hsize & Hv' & Hframe & Hlsb).
  exists im'. repeat (split; [done|]). split; [|done].
  unfold reads. rewrite Hsize. apply mapM_Some_2, Forall2_same_length_lookup_2.
  - rewrite !length_take, scan_length. unfold pixel_count in Hn. lia.
  - intros j rc d [Hrc Hj]%lookup_take_Some [Hd _]%lookup_take_Some.
    by rewrite (Hlsb j rc Hj Hrc).
Qed.

End Reach.

(** The reads of fewer steps are a prefix of the reads of more. *)
Lemma reads_take (im : image) (k k' : nat) (b : binstr) :
  reads im k = Some b → k' ≤ k → reads im k' = Some (take k' b).
Proof.
  unfold reads. intros Hb Hk. apply mapM_Some in Hb. apply mapM_Some.
  replace (take k' (scan (size im))) with (take k' (take k (scan (size im))))
    by (rewrite take_take; f_equal; lia).
  by apply Forall2_take.
Qed.

(** The round trip wherever the walk stays inside the image, square or not. *)
Lemma roundtrip_inside (im : image) (message : str) :
  valid_image im →
  Forall (λ c, (c < 256)%N) message →
  length (text_to_binary message ++ delimeter) ≤ reach im →
  sentinel_only_at_end (text_to_binary message ++ delimeter) →
  ∃ im', hidden im message = Some im' ∧ size im' = size im ∧ valid_image im' ∧
         (reveal im').1 = Val message.
Proof.
  intros Hv Hchars Hroom Hfree.
  pose proof (reach_le_pixel_count im Hv) as Hpc.
  set (bits := text_to_binary message ++ delimeter) in *.
  destruct (hide_embeds im Hv message (length bits)) as (im' & Hrun & Hsize & Hv' & Hreads & _);
    [fold bits; lia|done|].
  fold bits in Hreads. rewrite take_ge in Hreads by done.
  exists im'. split; [by unfold hidden; rewrite Hrun|]. split; [done|]. split; [done|].
  assert (0 < length bits) as Hpos by (unfold bits; rewrite length_app; simpl; lia).
  rewrite (reveal_returns im' (length bits - 1) bits).
  - simpl. unfold bits. change 16 with (length delimeter).
    rewrite drop_last_app. by rewrite binary_to_text_text_to_binary.
  - unfold pixel_count in *. rewrite Hsize. lia.
  - by replace (S (length bits - 1)) with (length bits) by lia.
  - apply endswith_app.
  - intros j Hj. apply Hfree. fold bits. lia.
Qed.

(** X8. On a valid image [hide_message] returns exactly when the steps it has
    to take, the smaller of the number of digits and the number of pixels, end
    before the first step whose transposed coordinate is outside the image;
    otherwise it raises IndexError. *)
Theorem hide_returns_iff (im : image) (message : str) :
  valid_image im →
  ((hide im message).1 = Val tt ↔
   length (text_to_binary message ++ delimeter) `min` pixel_count im ≤ reach im).
Proof.
  intros Hv. split.
  - intros Hret.
    destruct (decide (length (text_to_binary message ++ delimeter) `min` pixel_count im
                      ≤ reach im)) as [|Hgt]; [done|].
    assert (¬ square im) as Hns.
    { intros Hsq. rewrite (reach_square im Hsq) in Hgt. lia. }
    destruct (reach_outside im Hv Hns) as (rc & Hrc & Hout).
    destruct (hide_raises im message (reach im) rc Hv Hrc) as (im' & Hrun);
      [lia|by apply reach_inside|done|].
    by rewrite Hrun in Hret.
  - intros Hle.
    destruct (hide_embeds im Hv message _ eq_refl Hle) as (im' & Hrun & _).
    by rewrite Hrun.
Qed.

Lemma hide_returns_iff_witness :
  (hide (plain 20 3 black) (str_of "")).1 = Val tt ↔
  length (text_to_binary (str_of "") ++ delimeter) `min` pixel_count (plain 20 3 black)
  ≤ reach (plain 20 3 black).
Proof.
  apply (hide_returns_iff (plain 20 3 black) (str_of "")).
  apply valid_image_check. vm_compute. reflexivity.
Defined.

(** X9. The round trip does not need a square image: on any valid image such
    that the [8 * len(message) + 16] digits end before the first step whose
    transposed coordinate is outside, an 8-bit message without an earlier
    delimeter window is revealed from the saved image as it was hidden. *)
Theorem roundtrip_within_reach (im : image) (message : str) :
  valid_image im →
  Forall (λ c, (c < 256)%N) message →
  8 * length message + 16 ≤ reach im →
  sentinel_only_at_end (text_to_binary message ++ delimeter) →
  ∃ im', hidden im message = Some im' ∧ (reveal im').1 = Val message.
Proof.
  intros Hv Hchars Hroom Hfree.
  destruct (roundtrip_inside im message) as (im' & Hhid & _ & _ & Hrev); try done.
  - rewrite length_app, text_to_binary_length by done. simpl. lia.
  - eauto.
Qed.

Lemma roundtrip_within_reach_witness :
  ∃ im', hidden (plain 24 30 black) (str_of "A") = Some im' ∧
         (reveal im').1 = Val (str_of "A").
Proof.
  apply (roundtrip_within_reach (plain 24 30 black) (str_of "A")).
  - apply valid_image_check. vm_compute. reflexivity.
  - repeat constructor.
  - vm_compute. lia.
  - apply sentinel_only_at_end_check. vm_compute. reflexivity.
Defined.

(** X10. What [hide_message] embeds, also when the image is too small: after
    the walk of [n] steps, [n] the smaller of the number of digits and the
    number of pixels, the first [n] digits that [reveal_message] reads from
    the saved image are the first [n] digits of the bitstream. *)
Theorem hide_embeds_prefix (im : image) (message : str) (n : nat) :
  valid_image im →
  n = length (text_to_binary message ++ delimeter) `min` pixel_count im →
  n ≤ reach im →
  ∃ im', hidden im message = Some im' ∧ size im' = size im ∧
         reads im' n = Some (take n (text_to_binary message ++ delimeter)).
Proof.
  intros Hv Hn Hreach.
  destruct (hide_embeds im Hv message n Hn Hreach) as (im' & Hrun & Hsize & _ & Hreads & _).
  exists im'. unfold hidden. by rewrite Hrun.
Qed.

Lemma hide_embeds_prefix_witness :
  ∃ im', hidden (plain 3 3 black) (str_of "Hi") = Some im' ∧
         size im' = size (plain 3 3 black) ∧
         reads im' 9 = Some (take 9 (text_to_binary (str_of "Hi") ++ delimeter)).
Proof.
  apply (hide_embeds_prefix (plain 3 3 black) (str_of "Hi") 9).
  - apply valid_image_check. vm_compute. reflexivity.
  - vm_compute. reflexivity.
  - vm_compute. lia.
Defined.

(** X11. A message that does not fit is lost without a trace: on a valid
    square image with fewer pixels than digits, when no earlier window of the
    bitstream equals the delimeter, [hide_message] saves and [reveal_message]
    on the saved image returns "ERROR". *)
Theorem truncated_message_reveals_error (im : image) (message : str) :
  valid_image im →
  square im →
  pixel_count im < length (text_to_binary message ++ delimeter) →
  sentinel_only_at_end (text_to_binary message ++ delimeter) →
  ∃ im', hidden im message = Some im' ∧ (reveal im').1 = Val (str_of "ERROR").
Proof.
  intros Hv Hsq Hshort Hfree.
  destruct (hide_embeds im Hv message (pixel_count im)) as (im' & Hrun & Hsize & _ & Hreads & _).
  { lia. }
  { by rewrite reach_square. }
  exists im'. split; [by unfold hidden; rewrite Hrun|].
  assert (pixel_count im' = pixel_count im) as Hpc by (unfold pixel_count; by rewrite Hsize).
  rewrite <- Hpc in Hreads at 1.
  rewrite (reveal_error im' _ Hreads); [done|].
  intros j Hj. rewrite length_take in Hj.
  rewrite take_take. replace (S j `min` pixel_count im) with (S j) by lia.
  apply Hfree. lia.
Qed.

Lemma truncated_message_reveals_error_witness :
  ∃ im', hidden (plain 4 4 black) (str_of "Hi") = Some im' ∧
         (reveal im').1 = Val (str_of "ERROR").
Proof.
  apply (truncated_message_reveals_error (plain 4 4 black) (str_of "Hi")).
  - apply valid_image_check. vm_compute. reflexivity.
  - reflexivity.
  - vm_compute. lia.
  - apply sentinel_only_at_end_check. vm_compute. reflexivity.
Defined.

(** X12. The last message wins: hiding a second message in the image saved
    with a first one (square image, room for the second, 8-bit and without an
    earlier delimeter window) and revealing gives the second message, whatever
    the first was. *)
Theorem second_message_replaces_first (im : image) (first second : str) :
  valid_image im →
  square im →
  Forall (λ c, (c < 256)%N) second →
  8 * length second + 16 ≤ pixel_count im →
  sentinel_only_at_end (text_to_binary second ++ delimeter) →
  ∃ im1 im2, hidden im first = Some im1 ∧ hidden im1 second = Some im2 ∧
             (reveal im2).1 = Val second.
Proof.
  intros Hv Hsq Hchars Hroom Hfree.
  destruct (hide_embeds im Hv first _ eq_refl) as (im1 & Hrun & Hsize & Hv1 & _).
  { rewrite reach_square by done. lia. }
  assert (square im1) as Hsq1 by (unfold square; by rewrite Hsize).
  destruct (roundtrip_square im1 second) as (im2 & Hhid & _ & _ & Hrev); try done.
  { rewrite length_app, text_to_binary_length by done. unfold pixel_count in *.
    rewrite Hsize. simpl. lia. }
  exists im1, im2. unfold hidden at 1. by rewrite Hrun.
Qed.

Lemma second_message_replaces_first_witness :
  ∃ im1 im2, hidden (plain 6 6 black) (str_of "Hi") = Some im1 ∧
             hidden im1 (str_of "Yo") = Some im2 ∧
             (reveal im2).1 = Val (str_of "Yo").
Proof.
  apply (second_message_replaces_first (plain 6 6 black) (str_of "Hi") (str_of "Yo")).
  - apply valid_image_check. vm_compute. reflexivity.
  - reflexivity.
  - repeat constructor.
  - vm_compute. lia.
  - apply sentinel_only_at_end_check. vm_compute. reflexivity.
Defined.

(** ** A delimeter window inside the message *)

Section EarlyWindow.

Lemma first_match_inv (s : binstr) : ∀ buf n,
  first_match buf s = Some n →
  n < length s ∧
  endswith (buf ++ take (S n) s) delimeter = true ∧
  (∀ j, j < n → endswith (buf ++ take (S j) s) delimeter = false).
Proof.
  induction s as [|b s IH]; intros buf n; [done|].
  simpl first_match. destruct (endswith (buf ++ [b]) delimeter) eqn:Hend.
  - intros [= <-]. split; [simpl; lia|]. split; [done|]. intros j Hj. lia.
  - destruct (first_match (buf ++ [b]) s) as [m|] eqn:Hm; [|done].
    intros [= <-]. destruct (IH _ _ Hm) as (Hlt & Hhit & Hbefore).
    split; [simpl; lia|]. split.
    + rewrite <- app_assoc in Hhit. exact Hhit.
    + intros [|j] Hj; [exact Hend|].
      specialize (Hbefore j ltac:(lia)). by rewrite <- app_assoc in Hbefore.
Qed.

Lemma first_match_exists (s : binstr) : ∀ buf j,
  j < length s →
  endswith (buf ++ take (S j) s) delimeter = true →
  ∃ n, n ≤ j ∧ first_match buf s = Some n.
Proof.
  induction s as [|b s IH]; intros buf j Hj Hend; simpl in Hj; [lia|].
  simpl first_match. destruct (endswith (buf ++ [b]) delimeter) eqn:Hfirst.
  - exists 0. split; [lia|done].
  - destruct j as [|j].
    { change (endswith (buf ++ [b]) delimeter = true) in Hend. congruence. }
    destruct (IH (buf ++ [b]) j) as (n & Hn & Hm); [lia|by rewrite <- app_assoc|].
    exists (S n). split; [lia|]. by rewrite Hm.
Qed.

(** The last digit of a string that ends with the delimeter is '0', and every
    digit of the delimeter before its last is '1'. *)
Lemma endswith_last_digit (s : binstr) :
  endswith s delimeter = true → 16 ≤ length s ∧ s !! (length s - 1) = Some false.
Proof.
  unfold endswith. intros [Hlen Hdrop]%bool_decide_eq_true.
  change (length delimeter) with 16 in *. split; [done|].
  assert (drop (length s - 16) s !! 15 = Some false) as Hlast by by rewrite Hdrop.
  rewrite lookup_drop in Hlast. rewrite <- Hlast. f_equal. lia.
Qed.

Lemma delimeter_ones (i : nat) : i < 15 → delimeter !! i = Some true.
Proof. intros Hi. do 15 (destruct i as [|i]; [done|]). lia. Qed.

End EarlyWindow.

(** X13. A window equal to the delimeter inside the digits of the message
    cuts the message short: when some proper prefix of the bitstream of an
    8-bit message ends with the delimeter, the image saved by [hide_message]
    (the digits ending before the first step whose transposed coordinate is
    outside) is revealed as a text with fewer characters than the message. *)
Theorem embedded_delimeter_cuts_message (im : image) (message : str) (j : nat) :
  valid_image im →
  Forall (λ c, (c < 256)%N) message →
  8 * length message + 16 ≤ reach im →
  S j < length (text_to_binary message ++ delimeter) →
  endswith (take (S j) (text_to_binary message ++ delimeter)) delimeter = true →
  ∃ im' text, hidden im message = Some im' ∧ (reveal im').1 = Val text ∧
              length text < length message.
Proof.
  intros Hv Hchars Hroom Hj Hend.
  pose proof (reach_le_pixel_count im Hv) as Hpc.
  pose proof (text_to_binary_length message Hchars) as Hm.
  set (bits := text_to_binary message ++ delimeter) in *.
  assert (length bits = 8 * length message + 16) as HL
    by (unfold bits; rewrite length_app, Hm; simpl; lia).
  destruct (hide_embeds im Hv message (length bits)) as (im' & Hrun & Hsize & _ & Hreads & _);
    [fold bits; lia|lia|].
  fold bits in Hreads. rewrite take_ge in Hreads by done.
  destruct (first_match_exists bits [] j) as (n & Hn & Hfm); [lia|done|].
  destruct (first_match_inv bits [] n Hfm) as (Hlt & Hhit & Hbefore). simpl in Hhit, Hbefore.
  destruct (endswith_last_digit _ Hhit) as [H16 Hlast].
  rewrite length_take in H16, Hlast.
  replace (S n `min` length bits - 1) with n in Hlast by lia.
  rewrite lookup_take_lt in Hlast by lia.
  assert (n < 8 * length message) as Hinside.
  { destruct (decide (n < 8 * length message)) as [|Hge]; [done|].
    unfold bits in Hlast. rewrite lookup_app_r, Hm in Hlast by lia.
    rewrite delimeter_ones in Hlast by lia. done. }
  exists im', (binary_to_text (drop_last 16 (take (S n) bits))).
  split; [by unfold hidden; rewrite Hrun|]. split.
  - rewrite (reveal_returns im' n (take (S n) bits)); [done| | |done|].
    + unfold pixel_count in *. rewrite Hsize. lia.
    + apply (reads_take im' (length bits)); [done|lia].
    + intros i Hi. rewrite take_take. replace (S i `min` S n) with (S i) by lia.
      by apply Hbefore.
  - rewrite binary_to_text_groups, length_fmap, length_seq.
    unfold drop_last. rewrite !length_take.
    apply Nat.Div0.div_lt_upper_bound. lia.
Qed.

Lemma embedded_delimeter_cuts_message_witness :
  ∃ im' text, hidden (plain 7 7 black) [255; 254; 65]%N = Some im' ∧
              (reveal im').1 = Val text ∧
              length text < length [255; 254; 65]%N.
Proof.
  apply (embedded_delimeter_cuts_message (plain 7 7 black) [255; 254; 65]%N 15).
  - apply valid_image_check. vm_compute. reflexivity.
  - repeat constructor.
  - vm_compute. lia.
  - vm_compute. lia.
  - vm_compute. reflexivity.
Defined.

(** ** Which tuple ends up where *)

Section Tuples.
Implicit Types (im : image) (rc xy : nat * nat) (w : world) (p : pixel).

Lemma int_digit_bits (d : bool) (n : Z) : (0 < n)%Z → Z.testbit (int_digit d) n = false.
Proof.
  intros Hn. destruct d; simpl; [|apply Z.testbit_0_l].
  change 1%Z with (2 ^ 0)%Z. apply Z.pow2_bits_false. lia.
Qed.

(** Replacing the lowest bit twice is replacing it with the second digit. *)
Lemma with_lsb_with_lsb (channel : Z) (d0 d : bool) :
  with_lsb (with_lsb channel d0) d = with_lsb channel d.
Proof.
  unfold with_lsb. apply Z.bits_inj'. intros n Hn.
  rewrite !Z.lor_spec, !Z.land_spec, Z.lor_spec, Z.land_spec.
  destruct (decide (n = 0%Z)) as [->|Hn0].
  - change (Z.testbit (Z.lnot 1) 0) with false. by rewrite !andb_false_r.
  - rewrite Z.lnot_spec by done.
    assert (Z.testbit 1 n = false) as ->
      by (change 1%Z with (2 ^ 0)%Z; apply Z.pow2_bits_false; lia).
    rewrite !int_digit_bits by lia. simpl. by rewrite !andb_true_r, !orb_false_r.
Qed.

Lemma set_lsb_set_lsb p (d0 d : bool) : set_lsb (set_lsb p d0) d = set_lsb p d.
Proof. destruct p as [|channel rest]; [done|]. simpl. by rewrite with_lsb_with_lsb. Qed.

(** Each step writes the tuple it reads, with the digit in; the tuple it
    reads is the one the image had at that coordinate unless an earlier step
    wrote there, which is when the transposed pair came earlier in the walk:
    then it is the tuple the image had at the coordinate written now. *)
Lemma hide_walk_pixels (bits : binstr) (l : list (nat * nat)) : ∀ i w r w',
  valid_image (img w) →
  Forall (λ rc, inside (img w) rc = true ∧ inside (img w) (transpose rc) = true) l →
  NoDup l →
  i + length l ≤ length bits →
  for_loop l (hide_step bits) i w = (r, w') →
  ∀ k rc d p,
    l !! k = Some rc →
    bits !! (i + k) = Some d →
    pixel_at (img w) (if decide (transpose rc ∈ take k l) then transpose rc else rc) = Some p →
    pixel_at (img w') (transpose rc) = Some (set_lsb p d).
Proof.
  induction l as [|rc0 l IH]; intros i w r w' Hv Hin Hnd Hlen Hrun k rc d p Hk Hd Hp;
    [done|].
  apply list.Forall_cons in Hin as [[Hrc0 Htr0] Hin]. simpl in Hlen.
  apply list.NoDup_cons in Hnd as [Hnotin Hnd].
  destruct (valid_pixel_at _ _ Hv Hrc0) as (c0 & rest0 & Hp0).
  destruct (lookup_lt_is_Some_2 bits i) as [d0 Hd0]; [lia|].
  rewrite for_loop_cons in Hrun. unfold bind in Hrun.
  rewrite (hide_step_ok bits rc0 i w d0 c0 rest0 Hd0 Hp0 Htr0) in Hrun.
  cbv beta iota in Hrun. unfold resume in Hrun.
  change (<[0:=with_lsb c0 d0]> (c0 :: rest0)) with (set_lsb (c0 :: rest0) d0) in Hrun.
  set (im1 := put (img w) (transpose rc0) (set_lsb (c0 :: rest0) d0)) in *.
  set (w1 := World im1 (saved w) (log w ++ hide_events rc0)) in *.
  assert (valid_image im1) as Hv1 by by apply put_valid.
  destruct k as [|k].
  - injection Hk as <-. rewrite Nat.add_0_r, Hd0 in Hd. injection Hd as <-.
    simpl in Hp. rewrite Hp0 in Hp. injection Hp as <-.
    destruct (hide_walk bits l (i + 1) w1 Hv1 Hin ltac:(lia))
      as (im' & Hrun' & _ & _ & Hframe & _).
    rewrite Hrun' in Hrun. injection Hrun as _ <-. cbn [img].
    rewrite Hframe.
    + by apply pixel_at_put_eq.
    + intros [rc' [Heq Hrc']]%list_elem_of_fmap.
      apply transpose_inj in Heq. by subst rc'.
  - simpl in Hk. pose proof (list_elem_of_lookup_2 _ _ _ Hk) as Hrc.
    assert (rc ≠ rc0) as Hne by (intros ->; done).
    assert (bits !! (i + 1 + k) = Some d) as Hd' by (rewrite <- Hd; f_equal; lia).
    rewrite firstn_cons in Hp.
    destruct (decide (transpose rc = rc0)) as [Heq|Hneq].
    + assert (rc = transpose rc0) as Hrc' by (rewrite <- Heq; by rewrite transpose_involutive).
      rewrite decide_True in Hp by (rewrite Heq; left).
      rewrite Heq, Hp0 in Hp. injection Hp as <-.
      rewrite <- (set_lsb_set_lsb (c0 :: rest0) d0 d).
      apply (IH (i + 1) w1 r w' Hv1 Hin Hnd ltac:(lia) Hrun k rc d); [done|done|].
      rewrite decide_False by (rewrite Heq; intros ?%elem_of_take_elem; done).
      cbn [img]. rewrite Hrc'. by apply pixel_at_put_eq.
    + apply (IH (i + 1) w1 r w' Hv1 Hin Hnd ltac:(lia) Hrun k rc d); [done|done|].
      cbn [img]. destruct (decide (transpose rc ∈ take k l)) as [Hel|Hnel].
      * rewrite decide_True in Hp by by right.
        rewrite <- Hp. apply pixel_at_put_ne; [done|].
        intros Heq%transpose_inj. done.
      * rewrite decide_False in Hp by (intros [?|?]%list.elem_of_cons; done).
        rewrite <- Hp. apply pixel_at_put_ne; [done|].
        intros Heq. apply Hneq. by rewrite <- Heq, transpose_involutive.
Qed.

(** On a square image the transposed pair comes earlier in the scan exactly
    below the diagonal. *)
Lemma scan_transpose_before im k rc :
  square im →
  scan (size im) !! k = Some rc →
  transpose rc ∈ take k (scan (size im)) ↔ rc.2 < rc.1.
Proof.
  unfold square. intros Hsq Hk.
  destruct (scan_lookup_Some _ _ _ Hk) as [Hlt ->]. cbn [fst snd].
  rewrite Hsq in *. set (N := (size im).2) in *.
  assert (0 < N) as HN by nia.
  pose proof (Nat.div_mod_eq k N) as Hdm.
  pose proof (Nat.mod_upper_bound k N ltac:(lia)) as Hb.
  assert (k / N < N) as Ha by (apply Nat.Div0.div_lt_upper_bound; lia).
  set (a := k / N) in *. set (b := k mod N) in *.
  assert (scan (size im) !! (b * N + a) = Some (b, a)) as Hk'.
  { rewrite scan_lookup by (rewrite Hsq; fold N; nia). fold N.
    rewrite Nat.div_add_l, (Nat.div_small a N), Nat.add_0_r by lia.
    rewrite Nat.add_comm, Nat.Div0.mod_add, Nat.mod_small by lia. done. }
  unfold transpose. cbn [fst snd]. rewrite elem_of_take. split.
  - intros (i & Hi & Hik).
    assert (i = b * N + a) as -> by (eapply NoDup_lookup; [apply scan_NoDup|done..]).
    nia.
  - intros Hba. exists (b * N + a). split; [done|]. nia.
Qed.

Lemma scan_offset im k rc :
  square im → scan (size im) !! k = Some rc → offset im (transpose rc) = k.
Proof.
  unfold square, offset. intros Hsq Hk.
  destruct (scan_lookup_Some _ _ _ Hk) as [Hlt ->]. unfold transpose. cbn [fst snd].
  rewrite Hsq. pose proof (Nat.div_mod_eq k (size im).2). lia.
Qed.

(** The run of [hide_message] on a square image, with the walk itself. *)
Lemma hide_square_run im (message : str) (n : nat) :
  valid_image im → square im →
  n = length (text_to_binary message ++ delimeter) `min` pixel_count im →
  ∃ r w',
    for_loop (take n (scan (size im))) (hide_step (text_to_binary message ++ delimeter))
             0 (opened im) = (r, w') ∧
    hidden im message = Some (img w').
Proof.
  intros Hv Hsq Hn.
  assert (length (scan (size im)) = pixel_count im) as Hcells by apply scan_length.
  assert (length (take n (scan (size im))) = n) as Htake by (rewrite length_take; lia).
  destruct (hide_walk (text_to_binary message ++ delimeter) (take n (scan (size im))) 0 (opened im))
    as (im' & Hrun & _).
  - done.
  - apply list.Forall_forall. intros rc Hrc%elem_of_take_elem. split.
    + by apply scan_inside.
    + by apply scan_inside_square.
  - rewrite Htake. lia.
  - eexists _, _. split; [exact Hrun|]. cbn [img].
    unfold hidden. rewrite hide_unfold. rewrite <- (take_drop n (scan (size im))) at 1.
    unfold bind at 1. rewrite for_loop_app. unfold bind at 1.
    rewrite Hrun, Htake. cbv beta iota. unfold resume, opened. cbn [saved log].
    destruct (decide (length (text_to_binary message ++ delimeter) ≤ n)) as [Hle|Hgt].
    + by rewrite hide_walk_break.
    + rewrite drop_ge by lia. done.
Qed.

End Tuples.

Lemma hide_pixel_square (im : image) (message : str)
    (k row column : nat) (d : bool) :
  valid_image im →
  square im →
  k < length (text_to_binary message ++ delimeter) `min` pixel_count im →
  scan (size im) !! k = Some (row, column) →
  (text_to_binary message ++ delimeter) !! k = Some d →
  ∃ p im',
    pixel_at im (source (row, column)) = Some p ∧
    hidden im message = Some im' ∧
    pixel_at im' (column, row) = Some (set_lsb p d).
Proof.
  intros Hv Hsq Hk Hrc Hd.
  set (n := length (text_to_binary message ++ delimeter) `min` pixel_count im) in *.
  destruct (hide_square_run im message n Hv Hsq eq_refl) as (r & w' & Hrun & Hhid).
  pose proof (scan_inside im _ (list_elem_of_lookup_2 _ _ _ Hrc)) as Hin.
  pose proof (scan_inside_square im _ Hsq (list_elem_of_lookup_2 _ _ _ Hrc)) as Htr.
  assert (inside im (source (row, column)) = true) as Hsrc
    by (unfold source; by destruct (_ <? _)).
  destruct (valid_pixel_at im _ Hv Hsrc) as (c & rest & Hp).
  exists (c :: rest), (img w'). split; [done|]. split; [done|].
  change (column, row) with (transpose (row, column)).
  apply (hide_walk_pixels (text_to_binary message ++ delimeter) (take n (scan (size im)))
           0 (opened im) r w' Hv) with (k := k); try done.
  - apply list.Forall_forall. intros rc' Hrc'%elem_of_take_elem. split.
    + by apply scan_inside.
    + by apply scan_inside_square.
  - apply NoDup_take_prefix, scan_NoDup.
  - rewrite length_take, scan_length. unfold n, pixel_count. simpl. lia.
  - by rewrite lookup_take_lt.
  - cbn [img opened]. rewrite take_take. replace (k `min` n) with k by lia.
    rewrite <- Hp. f_equal. unfold source. cbn [fst snd].
    pose proof (scan_transpose_before im k (row, column) Hsq Hrc) as Hiff. cbn [fst snd] in Hiff.
    destruct (Nat.ltb_spec column row).
    + rewrite decide_True; [done|]. by apply Hiff.
    + rewrite decide_False; [done|]. rewrite Hiff. lia.
Qed.

(** X14. Which tuple [hide_message] stores: on a valid square image, step [k]
    with loop variables (row, column) and digit [d] leaves at the pixel
    (column, row) of the saved image a tuple with [d] as the lowest bit of
    channel 0 and all else taken from the pixel's own tuple in the input when
    column < row, and from the tuple of the pixel (row, column) of the input
    otherwise. *)
Theorem hide_stores_mirrored_tuple (im : image) (message : str)
    (k row column : nat) (d : bool) :
  valid_image im →
  square im →
  k < length (text_to_binary message ++ delimeter) `min` pixel_count im →
  scan (size im) !! k = Some (row, column) →
  (text_to_binary message ++ delimeter) !! k = Some d →
  ∃ p im',
    pixel_at im (source (row, column)) = Some p ∧
    hidden im message = Some im' ∧
    pixel_at im' (column, row) = Some (set_lsb p d).
Proof. apply hide_pixel_square. Qed.

Lemma hide_stores_mirrored_tuple_witness :
  ∃ p im',
    pixel_at (coordinates 5) (source (0, 4)) = Some p ∧
    hidden (coordinates 5) (str_of "") = Some im' ∧
    pixel_at im' (4, 0) = Some (set_lsb p true).
Proof.
  apply (hide_stores_mirrored_tuple (coordinates 5) (str_of "") 4 0 4 true).
  - apply valid_image_check. vm_compute. reflexivity.
  - reflexivity.
  - vm_compute. lia.
  - reflexivity.
  - reflexivity.
Defined.

(** X15. What [hide_message] leaves alone: on a valid square image, with [n]
    the smaller of the number of digits and the number of pixels, every pixel
    from the [n]-th on in raster order (row by row) has in the saved image
    the tuple it had. *)
Theorem hide_keeps_later_pixels (im : image) (message : str) (xy : nat * nat) :
  valid_image im →
  square im →
  length (text_to_binary message ++ delimeter) `min` pixel_count im ≤ offset im xy →
  ∃ im', hidden im message = Some im' ∧ pixel_at im' xy = pixel_at im xy.
Proof.
  intros Hv Hsq Hoff.
  destruct (hide_embeds im Hv message _ eq_refl) as (im' & Hrun & _ & _ & _ & Hframe).
  { rewrite reach_square by done. lia. }
  exists im'. split; [by unfold hidden; rewrite Hrun|].
  apply Hframe. intros [rc [-> Hrc]]%list_elem_of_fmap.
  apply elem_of_take in Hrc as (i & Hi & Hlt).
  rewrite (scan_offset im i rc Hsq Hi) in Hoff. lia.
Qed.

Lemma hide_keeps_later_pixels_witness :
  ∃ im', hidden (coordinates 5) (str_of "") = Some im' ∧
         pixel_at im' (1, 3) = pixel_at (coordinates 5) (1, 3).
Proof.
  apply (hide_keeps_later_pixels (coordinates 5) (str_of "") (1, 3)).
  - apply valid_image_check. vm_compute. reflexivity.
  - reflexivity.
  - vm_compute. lia.
Defined.

(** X16. The value "ERROR" does not tell the two cases apart: on a valid
    square image of at least 56 pixels the message "ERROR" is hidden and
    revealed as "ERROR", which is also what [reveal_message] returns for any
    image that it scans to the end without a match. *)
Theorem error_value_is_ambiguous (im : image) :
  valid_image im →
  square im →
  56 ≤ pixel_count im →
  ∃ im', hidden im (str_of "ERROR") = Some im' ∧
         (reveal im').1 = Val (str_of "ERROR") ∧
         ∀ (im0 : image) (s : binstr),
           reads im0 (pixel_count im0) = Some s →
           (∀ j, j < length s → endswith (take (S j) s) delimeter = false) →
           (reveal im0).1 = (reveal im').1.
Proof.
  intros Hv Hsq Hroom.
  destruct (roundtrip_square im (str_of "ERROR")) as (im' & Hhid & _ & _ & Hrev);
    try done.
  - repeat constructor.
  - apply sentinel_only_at_end_check. vm_compute. reflexivity.
  - exists im'. split; [done|]. split; [done|]. intros im0 s Hs Hnone.
    by rewrite Hrev, (reveal_error im0 s Hs Hnone).
Qed.

Lemma error_value_is_ambiguous_witness :
  ∃ im', hidden (plain 8 8 black) (str_of "ERROR") = Some im' ∧
         (reveal im').1 = Val (str_of "ERROR") ∧
         ∀ (im0 : image) (s : binstr),
           reads im0 (pixel_count im0) = Some s →
           (∀ j, j < length s → endswith (take (S j) s) delimeter = false) →
           (reveal im0).1 = (reveal im').1.
Proof.
  apply (error_value_is_ambiguous (plain 8 8 black)).
  - apply valid_image_check. vm_compute. reflexivity.
  - reflexivity.
  - vm_compute. lia.
Defined.

(** ** Hiding the same message again *)

Section Again.

Lemma image_eq (im1 im2 : image) :
  valid_image im1 → valid_image im2 → size im1 = size im2 →
  (∀ xy, inside im1 xy = true → pixel_at im2 xy = pixel_at im1 xy) →
  im2 = im1.
Proof.
  intros (HW & HH & Hlen1 & _) (_ & _ & Hlen2 & _) Hsize Hpix.
  destruct im1 as [sz1 r1], im2 as [sz2 r2]. simpl in *. subst sz2. f_equal.
  apply list_eq. intros i.
  destruct (decide (i < sz1.1 * sz1.2)) as [Hi|Hi].
  - assert (inside (Image sz1 r1) (i mod sz1.1, i / sz1.1) = true) as Hin.
    { apply inside_spec. simpl. split; [apply Nat.mod_upper_bound; lia|].
      apply Nat.Div0.div_lt_upper_bound. lia. }
    specialize (Hpix _ Hin). unfold pixel_at in Hpix.
    change (inside (Image sz1 r2) (i mod sz1.1, i / sz1.1))
      with (inside (Image sz1 r1) (i mod sz1.1, i / sz1.1)) in Hpix.
    rewrite Hin in Hpix. unfold offset in Hpix. simpl in Hpix.
    replace (i / sz1.1 * sz1.1 + i mod sz1.1) with i in Hpix
      by (pose proof (Nat.div_mod_eq i sz1.1); lia).
    done.
  - rewrite !lookup_ge_None_2 by lia. done.
Qed.

End Again.

(** X17. Hiding is idempotent on square images: hiding the same message in
    the image that [hide_message] saved saves the same image again. *)
Theorem hide_twice_same_image (im : image) (message : str) :
  valid_image im →
  square im →
  ∃ im1, hidden im message = Some im1 ∧ hidden im1 message = Some im1.
Proof.
  intros Hv Hsq.
  set (bits := text_to_binary message ++ delimeter).
  set (n := length bits `min` pixel_count im).
  destruct (hide_embeds im Hv message n eq_refl) as (im1 & Hrun1 & Hsize1 & Hv1 & _ & Hframe1).
  { rewrite reach_square by done. lia. }
  assert (square im1) as Hsq1 by (unfold square; by rewrite Hsize1).
  assert (pixel_count im1 = pixel_count im) as Hpc by (unfold pixel_count; by rewrite Hsize1).
  destruct (hide_embeds im1 Hv1 message n) as (im2 & Hrun2 & Hsize2 & Hv2 & _ & Hframe2).
  { by rewrite Hpc. }
  { rewrite reach_square, Hpc by done. lia. }
  rewrite Hsize1 in Hframe2.
  assert (hidden im message = Some im1) as Hhid1 by (unfold hidden; by rewrite Hrun1).
  assert (hidden im1 message = Some im2) as Hhid2 by (unfold hidden; by rewrite Hrun2).
  exists im1. split; [done|]. rewrite Hhid2. f_equal.
  apply image_eq; [done|done|done|]. intros xy Hxy.
  destruct (decide (xy ∈ transpose <$> take n (scan (size im)))) as [Hel|Hnel];
    [|by apply Hframe2].
  apply list_elem_of_fmap in Hel as ([row column] & -> & Hrc).
  apply elem_of_take in Hrc as (k & Hk & Hkn).
  destruct (lookup_lt_is_Some_2 bits k) as [d Hd]; [unfold n in Hkn; lia|].
  destruct (hide_pixel_square im message k row column d Hv Hsq Hkn Hk Hd)
    as (p & im1' & Hp & Hhid1' & Hw1).
  rewrite Hhid1 in Hhid1'. injection Hhid1' as <-.
  destruct (hide_pixel_square im1 message k row column d Hv1 Hsq1)
    as (p1 & im2' & Hp1 & Hhid2' & Hw2); [by rewrite Hpc|by rewrite Hsize1|done|].
  rewrite Hhid2 in Hhid2'. injection Hhid2' as <-.
  unfold transpose. cbn [fst snd]. rewrite Hw1, Hw2. f_equal.
  unfold source in Hp, Hp1. cbn [fst snd] in Hp, Hp1.
  destruct (Nat.ltb_spec column row) as [Hlt|Hge].
  - unfold transpose in Hp1. cbn [fst snd] in Hp1. rewrite Hw1 in Hp1.
    injection Hp1 as <-. apply set_lsb_set_lsb.
  - destruct (decide ((row, column) ∈ transpose <$> take n (scan (size im)))) as [Hel|Hnel].
    + apply list_elem_of_fmap in Hel as ([r' c'] & Heq & Hrc').
      unfold transpose in Heq. cbn [fst snd] in Heq. injection Heq as -> ->.
      apply elem_of_take in Hrc' as (k' & Hk' & Hkn').
      destruct (lookup_lt_is_Some_2 bits k') as [d' Hd']; [unfold n in Hkn'; lia|].
      destruct (hide_pixel_square im message k' r' c' d' Hv Hsq Hkn' Hk' Hd')
        as (p' & im1' & Hp' & Hhid1' & Hw1').
      rewrite Hhid1 in Hhid1'. injection Hhid1' as <-.
      rewrite Hw1' in Hp1. injection Hp1 as <-.
      unfold source, transpose in Hp'. cbn [fst snd] in Hp'.
      destruct (Nat.ltb_spec c' r') as [Hlt'|Hge'].
      * rewrite Hp in Hp'. injection Hp' as <-. apply set_lsb_set_lsb.
      * assert (r' = c') as -> by lia. rewrite Hp in Hp'.
        injection Hp' as <-. apply set_lsb_set_lsb.
    + rewrite (Hframe1 _ Hnel), Hp in Hp1. by injection Hp1 as <-.
Qed.

Lemma hide_twice_same_image_witness :
  ∃ im1, hidden (coordinates 5) (str_of "Hi") = Some im1 ∧
         hidden im1 (str_of "Hi") = Some im1.
Proof.
  apply (hide_twice_same_image (coordinates 5) (str_of "Hi")).
  - apply valid_image_check. vm_compute. reflexivity.
  - reflexivity.
Defined.
